(** * BracesColorPicker: the colour store and the pick resolver

    A shallow embedding of [src/BracesColorPicker.jsx].  The React state of
    the two components ([selectedColor], [colorMode], [meshColors]) is one
    record, each state setter is a function on that record, and the effect
    of lines 82-90 is run by the setters exactly when one of its
    dependencies changed.  JavaScript strings are [string], the
    [meshColors] object is a finite map on strings, and the numbers the
    click handler computes with are IEEE 754 binary64 numbers. *)

From Stdlib Require Import QArith Lqa DecimalString Sorted SpecFloat.
From stdpp Require Import gmap strings list fin_maps.

Local Open Scope string_scope.

(** ** JavaScript helpers *)

Module JS.

(** Truthiness of a string: every string but the empty one. *)
Definition truthy (s : string) : bool :=
  match s with
  | EmptyString => false
  | String _ _ => true
  end.

(** [String(n)] on a non-negative integer. *)
Definition String_of_nat (n : nat) : string :=
  NilEmpty.string_of_uint (Nat.to_uint n).

(** [n] characters read cyclically from [fill], starting in [cur];
    [fill] is not empty when this is called. *)
Fixpoint cycle (n : nat) (fill cur : string) : string :=
  match n with
  | O => EmptyString
  | S n' =>
      match cur with
      | String a rest => String a (cycle n' fill rest)
      | EmptyString =>
          match fill with
          | String a rest => String a (cycle n' fill rest)
          | EmptyString => EmptyString
          end
      end
  end.

(** [s.padStart(target, fill)]. *)
Definition padStart (s : string) (target : nat) (fill : string) : string :=
  if (target <=? String.length s)%nat then s
  else if truthy fill
       then cycle (target - String.length s) fill fill +:+ s
       else s.

(** [arr.includes(x)] on an array of strings. *)
Definition includes (arr : list string) (x : string) : bool :=
  bool_decide (x ∈ arr).

(** [a || b] on strings. *)
Definition or_else (a b : string) : string :=
  if truthy a then a else b.

End JS.

(** ** Part registry (lines 58-61) and palette (lines 7-55) *)

Record PaletteEntry := { name : string; hex : string }.

Definition COLORS : list PaletteEntry :=
  [ {| name := "Lime"; hex := "#32CD32" |};
    {| name := "Shamrock"; hex := "#009E60" |};
    {| name := "Green"; hex := "#008000" |};
    {| name := "Jade"; hex := "#00A86B" |};
    {| name := "Teal"; hex := "#008080" |};
    {| name := "Light Blue"; hex := "#87CEEB" |};
    {| name := "Blue"; hex := "#0000FF" |};
    {| name := "Navy"; hex := "#000080" |};
    {| name := "Purple"; hex := "#800080" |};
    {| name := "Lilac"; hex := "#C8A2C8" |};
    {| name := "Burgundy"; hex := "#800020" |};
    {| name := "Red"; hex := "#FF0000" |};
    {| name := "Fire Red"; hex := "#DC143C" |};
    {| name := "Rose"; hex := "#FF66CC" |};
    {| name := "Pink"; hex := "#FFC0CB" |};
    {| name := "Bubblegum"; hex := "#FF69B4" |};
    {| name := "Coral"; hex := "#FF7F50" |};
    {| name := "Dark Orange"; hex := "#FF8C00" |};
    {| name := "Orange"; hex := "#FFA500" |};
    {| name := "Yellow"; hex := "#FFFF00" |};
    {| name := "Black"; hex := "#000000" |};
    {| name := "Grey"; hex := "#808080" |};
    {| name := "Bronze"; hex := "#CD7F32" |};
    {| name := "Gold Rush"; hex := "#D4AF37" |};
    {| name := "Tooth Color"; hex := "#F5F5DC" |};
    {| name := "Pearl"; hex := "#F8F6F0" |};
    {| name := "White"; hex := "#FFFFFF" |};
    {| name := "Silver"; hex := "#C0C0C0" |} ].

(** [Array.from({ length: 16 }, (_, i) => `${prefix}${String(i + 1).padStart(4, '0')}`)] *)
Definition mesh_series (prefix : string) : list string :=
  map (fun i => prefix +:+ JS.padStart (JS.String_of_nat (i + 1)) 4 "0")
      (seq 0 16).

Definition BRACES_MESHES : list string :=
  mesh_series "BezierCircle005_Material005_"
  ++ mesh_series "BezierCircle006_Material005_".

(** The registry under the names the specification gives it. *)
Definition allParts : list string := BRACES_MESHES.
Definition isCustomizable (id : string) : bool := JS.includes BRACES_MESHES id.

(** ** Colour assignment store

    [selectedColor] and [colorMode] are the state of [BracesColorPicker]
    (lines 159-160), handed down as props; [meshColors] is the state of
    [BracesModel] (line 66). *)

Record Store := {
  selectedColor : string;
  colorMode : string;
  meshColors : gmap string string
}.

Definition All : string := "all".
Definition Single : string := "single".

(** [setMeshColors(v)] and [setMeshColors(prev => f(prev))].  The render
    that follows leaves the dependencies of the effect of lines 82-90 as
    they were, so the effect does not run again. *)
Definition setMeshColors (f : gmap string string -> gmap string string)
    (st : Store) : Store :=
  {| selectedColor := selectedColor st;
     colorMode := colorMode st;
     meshColors := f (meshColors st) |}.

(** Lines 84-87: [newColors], filled by the [forEach] over the registry. *)
Definition newColors (selectedColor : string) : gmap string string :=
  foldl (fun acc meshName => <[meshName := selectedColor]> acc) ∅ BRACES_MESHES.

(** Lines 82-90: the body of the effect. *)
Definition applyColorsEffect (st : Store) : Store :=
  if (colorMode st =? All)%string && JS.truthy (selectedColor st)
  then setMeshColors (fun _ => newColors (selectedColor st)) st
  else st.

(** The dependency array [[selectedColor, colorMode]] of line 90: the effect
    runs again after a render in which one of the two differs from the
    previous render. *)
Definition deps_changed (old new : Store) : bool :=
  negb (selectedColor old =? selectedColor new)%string
  || negb (colorMode old =? colorMode new)%string.

Definition rerender (old new : Store) : Store :=
  if deps_changed old new then applyColorsEffect new else new.

(** Line 282, [setSelectedColor(color.hex)], and lines 184 and 193,
    [setColorMode('all')] and [setColorMode('single')]. *)
Definition setSelectedColor (c : string) (st : Store) : Store :=
  rerender st {| selectedColor := c;
                 colorMode := colorMode st;
                 meshColors := meshColors st |}.

Definition setColorMode (m : string) (st : Store) : Store :=
  rerender st {| selectedColor := selectedColor st;
                 colorMode := m;
                 meshColors := meshColors st |}.

(** Lines 72-79. *)
Definition handleMeshClick (st : Store) (meshName : string) : Store :=
  if (colorMode st =? Single)%string && JS.truthy (selectedColor st)
  then setMeshColors (fun prev => <[meshName := selectedColor st]> prev) st
  else st.

(** What [handleCanvasClick] (lines 93-113) does to the store once the
    nearest intersected object is known to be named [id]: the guard of line
    94, the registry test of line 109 and the call of line 110.  It is the
    only way into [handleMeshClick]. *)
Definition applyPick (id : string) (st : Store) : Store :=
  if negb (colorMode st =? Single)%string then st
  else if JS.includes BRACES_MESHES id then handleMeshClick st id
  else st.

(** Line 127: [meshColors[child.name] || '#0000FF'].  The lookup is made for
    registry names only (line 126). *)
Definition colorFor (mc : gmap string string) (id : string) : string :=
  match mc !! id with
  | Some c => JS.or_else c "#0000FF"
  | None => "#0000FF"
  end.

(** The first render: the [useState] arguments of lines 159, 160 and 66. *)
Definition useState_init (selectedColor colorMode : string) : Store :=
  {| selectedColor := selectedColor;
     colorMode := colorMode;
     meshColors := ∅ |}.

Definition initial : Store := useState_init "#0000FF" "all".

(** [BracesModel] is rendered for the first time when the asset is loaded,
    with the props of that moment, and every effect runs after a first
    render. *)
Definition mount (selectedColor colorMode : string) : Store :=
  applyColorsEffect (useState_init selectedColor colorMode).

(** The operations under the names the specification gives them. *)
Definition setPendingColor := setSelectedColor.
Definition setMode := setColorMode.

Inductive Op :=
| SetPendingColor (c : string)
| SetMode (m : string)
| ApplyPick (id : string).

Definition step (op : Op) (st : Store) : Store :=
  match op with
  | SetPendingColor c => setPendingColor c st
  | SetMode m => setMode m st
  | ApplyPick id => applyPick id st
  end.

Definition run (ops : list Op) (st : Store) : Store :=
  foldl (fun s op => step op s) st ops.

Inductive reachable : Store -> Prop :=
| reach_mount sel mode : reachable (mount sel mode)
| reach_step st op : reachable st -> reachable (step op st).

(** What the page itself can send: a palette card (line 282), one of the
    two mode buttons (lines 184 and 193), a click on the canvas. *)
Inductive ui_event : Op -> Prop :=
| ui_palette entry : entry ∈ COLORS -> ui_event (SetPendingColor (hex entry))
| ui_mode_all : ui_event (SetMode All)
| ui_mode_single : ui_event (SetMode Single)
| ui_click id : ui_event (ApplyPick id).

Inductive ui_reachable : Store -> Prop :=
| ui_mount entry mode :
    entry ∈ COLORS -> mode ∈ [All; Single] ->
    ui_reachable (mount (hex entry) mode)
| ui_step st op : ui_reachable st -> ui_event op -> ui_reachable (step op st).

(** [{p: c for p in allParts()}], in the words of the specification. *)
Definition uniform (c : string) : gmap string string :=
  list_to_map ((fun p => (p, c)) <$> allParts).

(** In mode [All] with a pending colour, the mapping is the broadcast of
    that colour. *)
Definition uniform_in_all (st : Store) : Prop :=
  colorMode st = All -> selectedColor st ≠ "" ->
  meshColors st = uniform (selectedColor st).

(** Every key of the mapping is a registry name. *)
Definition keys_known (st : Store) : Prop :=
  dom (meshColors st) ⊆ list_to_set allParts.

(** ** JavaScript numbers

    A JavaScript number is an IEEE 754 binary64 value: 53 bits of
    precision, exponents up to 1024, results rounded to nearest, ties to
    even.  The operations are those of the specification of floating-point
    arithmetic of the standard library, at that format. *)
Module Number.

Definition prec : Z := 53.
Definition emax : Z := 1024.

Definition t : Type := spec_float.

Definition add (a b : t) : t := SFadd prec emax a b.
Definition sub (a b : t) : t := SFsub prec emax a b.
Definition mul (a b : t) : t := SFmul prec emax a b.
Definition div (a b : t) : t := SFdiv prec emax a b.
Definition neg (a : t) : t := SFopp a.
Definition leb (a b : t) : bool := SFleb a b.
Definition ltb (a b : t) : bool := SFltb a b.

(** An integer literal. *)
Definition of_Z (z : Z) : t := binary_normalize prec emax z 0 false.

Definition zero : t := of_Z 0.
Definition one : t := of_Z 1.
Definition two : t := of_Z 2.

(** A value a JavaScript number can have: the mantissa and the exponent of
    a finite one are in the canonical form of the format. *)
Definition valid (a : t) : bool := valid_binary prec emax a.

End Number.

(** ** Pick resolver (lines 93-113) *)

Module Vector2.
Record t := mk { x : Number.t; y : Number.t }.
End Vector2.

Module MouseEvent.
Record t := mk { clientX : Number.t; clientY : Number.t }.
End MouseEvent.

(** The result of [gl.domElement.getBoundingClientRect()]. *)
Module DOMRect.
Record t := mk { left : Number.t; top : Number.t;
                 width : Number.t; height : Number.t }.
End DOMRect.

(** What the file uses of three.js.  The library is not part of the
    repository: its ray caster is an interface here, with one property of
    its documentation, that [intersectObjects] returns the intersections
    sorted by distance, the nearest first. *)
Module THREE.

Record Intersection (Object3D : Type) := mkIntersection {
  distance : Q;
  object : Object3D
}.
Arguments mkIntersection {Object3D}.
Arguments distance {Object3D}.
Arguments object {Object3D}.

Class Api := {
  Camera : Type;
  Ray : Type;
  Object3D : Type;
  name : Object3D -> string;
  children : Object3D -> list Object3D;
  (** the ray that [raycaster.setFromCamera(coords, camera)] stores *)
  setFromCamera : Vector2.t -> Camera -> Ray;
  (** [raycaster.intersectObjects(objects, recursive)] for the stored ray;
      the other fields of the ray caster keep the values
      [new THREE.Raycaster()] gave them *)
  intersectObjects : Ray -> list Object3D -> bool -> list (Intersection Object3D)
}.

Definition nearer `{Api} (i j : Intersection Object3D) : Prop :=
  (distance i <= distance j)%Q.

Class NearestFirst `{Api} : Prop :=
  nearest_first : forall ray objects recursive,
    StronglySorted nearer (intersectObjects ray objects recursive).

End THREE.

Section Resolver.
Context `{api : THREE.Api}.

(** The two [useRef] cells of lines 68-69: [mouse.current] and the ray
    held by [raycaster.current]. *)
Record Refs := {
  mouse : Vector2.t;
  raycaster : THREE.Ray
}.

(** Lines 98-99. *)
Definition ndc_x (event : MouseEvent.t) (rect : DOMRect.t) : Number.t :=
  Number.sub
    (Number.mul
       (Number.div (Number.sub (MouseEvent.clientX event) (DOMRect.left rect))
                   (DOMRect.width rect))
       Number.two)
    Number.one.

Definition ndc_y (event : MouseEvent.t) (rect : DOMRect.t) : Number.t :=
  Number.add
    (Number.mul
       (Number.neg
          (Number.div (Number.sub (MouseEvent.clientY event) (DOMRect.top rect))
                      (DOMRect.height rect)))
       Number.two)
    Number.one.

(** Lines 97-112 without the store: the cells are written in the order of
    the source, each statement reading what the previous ones left, and
    the result is the name [handleMeshClick] is called with, if it is. *)
Definition resolve (refs : Refs) (event : MouseEvent.t) (rect : DOMRect.t)
    (camera : THREE.Camera) (scene : THREE.Object3D) : Refs * option string :=
  let r1 := {| mouse := Vector2.mk (ndc_x event rect) (Vector2.y (mouse refs));
               raycaster := raycaster refs |} in
  let r2 := {| mouse := Vector2.mk (Vector2.x (mouse r1)) (ndc_y event rect);
               raycaster := raycaster r1 |} in
  let r3 := {| mouse := mouse r2;
               raycaster := THREE.setFromCamera (mouse r2) camera |} in
  let intersects :=
    THREE.intersectObjects (raycaster r3) (THREE.children scene) true in
  (r3,
   match intersects with
   | i :: _ =>
       let clickedObject := THREE.object i in
       if JS.includes BRACES_MESHES (THREE.name clickedObject)
       then Some (THREE.name clickedObject)
       else None
   | [] => None
   end).

(** Lines 93-113. *)
Definition handleCanvasClick (st : Store) (refs : Refs)
    (event : MouseEvent.t) (rect : DOMRect.t)
    (camera : THREE.Camera) (scene : THREE.Object3D) : Store * Refs :=
  if negb (colorMode st =? Single)%string then (st, refs)
  else
    let '(refs', picked) := resolve refs event rect camera scene in
    (match picked with
     | Some meshName => handleMeshClick st meshName
     | None => st
     end, refs').

(** The intersections the click of [event] yields. *)
Definition hits (event : MouseEvent.t) (rect : DOMRect.t)
    (camera : THREE.Camera) (scene : THREE.Object3D) :=
  THREE.intersectObjects
    (THREE.setFromCamera (Vector2.mk (ndc_x event rect) (ndc_y event rect)) camera)
    (THREE.children scene) true.

End Resolver.

(** ** A small ray caster to run the resolver on

    Objects are axis-parallel rectangles of the image plane at a depth, in
    a tree; the ray through a point of the plane meets the rectangles that
    contain the point. *)
Module Flat.

Record Box := {
  xmin : Number.t; xmax : Number.t;
  ymin : Number.t; ymax : Number.t;
  depth : Q
}.

#[local] Unset Elimination Schemes.
Inductive Obj := Node (name : string) (box : option Box) (children : list Obj).
#[local] Set Elimination Schemes.

Definition name (o : Obj) : string := let 'Node n _ _ := o in n.
Definition children (o : Obj) : list Obj := let 'Node _ _ cs := o in cs.

Definition inside (p : Vector2.t) (b : Box) : bool :=
  Number.leb (xmin b) (Vector2.x p) && Number.leb (Vector2.x p) (xmax b)
  && Number.leb (ymin b) (Vector2.y p) && Number.leb (Vector2.y p) (ymax b).

Fixpoint raycast (p : Vector2.t) (recursive : bool) (o : Obj)
    : list (THREE.Intersection Obj) :=
  match o with
  | Node _ box cs =>
      match box with
      | Some b => if inside p b then [THREE.mkIntersection (depth b) o] else []
      | None => []
      end
      ++ (if recursive then flat_map (raycast p recursive) cs else [])
  end.

Fixpoint insert_hit (i : THREE.Intersection Obj)
    (l : list (THREE.Intersection Obj)) : list (THREE.Intersection Obj) :=
  match l with
  | [] => [i]
  | j :: l' =>
      if Qle_bool (THREE.distance i) (THREE.distance j)
      then i :: j :: l'
      else j :: insert_hit i l'
  end.

Definition intersectObjects (p : Vector2.t) (objects : list Obj)
    (recursive : bool) : list (THREE.Intersection Obj) :=
  foldr insert_hit [] (flat_map (raycast p recursive) objects).

#[export] Instance api : THREE.Api := {|
  THREE.Camera := unit;
  THREE.Ray := Vector2.t;
  THREE.Object3D := Obj;
  THREE.name := name;
  THREE.children := children;
  THREE.setFromCamera := fun coords _ => coords;
  THREE.intersectObjects := intersectObjects
|}.

Definition unit_box (d : Q) : Box :=
  {| xmin := Number.of_Z (-1); xmax := Number.of_Z 1;
     ymin := Number.of_Z (-1); ymax := Number.of_Z 1;
     depth := d |}.

(** A tooth in front of a brace, the brace one level down in the tree. *)
Definition occluded_scene : Obj :=
  Node "Scene" None
    [ Node "Group" None
        [ Node "BezierCircle005_Material005_0001" (Some (unit_box 2)) [] ];
      Node "Tooth" (Some (unit_box 1)) [] ].

(** The brace alone. *)
Definition clear_scene : Obj :=
  Node "Scene" None
    [ Node "Group" None
        [ Node "BezierCircle005_Material005_0001" (Some (unit_box 2)) [] ] ].

Definition canvas : DOMRect.t :=
  DOMRect.mk (Number.of_Z 10) (Number.of_Z 20) (Number.of_Z 800) (Number.of_Z 400).
Definition centre_click : MouseEvent.t :=
  MouseEvent.mk (Number.of_Z 410) (Number.of_Z 220).
Definition refs0 : Refs :=
  {| mouse := Vector2.mk Number.zero Number.zero;
     raycaster := Vector2.mk Number.zero Number.zero |}.

End Flat.

(** ** The page (lines 158-311) *)

(** Line 283: the class of a palette card; the card is marked when its
    colour is the pending one. *)
Definition cardActive (st : Store) (color : PaletteEntry) : bool :=
  (selectedColor st =? hex color)%string.

Definition cardClassName (st : Store) (color : PaletteEntry) : string :=
  "color-card text-center cursor-pointer p-1.5 h-16 flex flex-col justify-between "
  +:+ (if cardActive st color then "active" else "").

(** Lines 185-188 and 194-197: the classes of the two mode buttons. *)
Definition modeButtonClassName (active : bool) : string :=
  "px-3 py-1 text-sm rounded transition-colors "
  +:+ (if active then "bg-primary text-white"
       else "bg-gray-200 text-gray-700 hover:bg-gray-300").

Definition allButtonClassName (st : Store) : string :=
  modeButtonClassName (colorMode st =? "all")%string.

Definition singleButtonClassName (st : Store) : string :=
  modeButtonClassName (colorMode st =? "single")%string.

(** Lines 261-264. *)
Definition instruction (st : Store) : string :=
  if (colorMode st =? "all")%string
  then "Select a color to apply to all braces"
  else "Select a color, then click on individual braces to change their color".

(** Lines 161-173, 207 and 211: the two flags of the page, the resize
    handler and the environment file. *)
Record Page := {
  isLoading : bool;
  isMobile : bool
}.

Definition page_initial : Page := {| isLoading := true; isMobile := false |}.

Definition checkMobile (innerWidth : Z) (pg : Page) : Page :=
  {| isLoading := isLoading pg; isMobile := (innerWidth <? 768)%Z |}.

Definition onCreated (pg : Page) : Page :=
  {| isLoading := false; isMobile := isMobile pg |}.

Definition environmentFiles (pg : Page) : string :=
  if isMobile pg then "/studio_1k.hdr" else "/studio_2k.hdr".

Inductive PageEvent :=
| Resize (innerWidth : Z)
| Created.

Definition page_step (ev : PageEvent) (pg : Page) : Page :=
  match ev with
  | Resize innerWidth => checkMobile innerWidth pg
  | Created => onCreated pg
  end.

(** The effect of lines 165-173 calls [checkMobile] once at mount. *)
Definition page_mount (innerWidth : Z) : Page := checkMobile innerWidth page_initial.

Definition page_run (evs : list PageEvent) (pg : Page) : Page :=
  foldl (fun p ev => page_step ev p) pg evs.

(** The width the window had at the last resize of [evs], [w0] if none. *)
Definition last_width (w0 : Z) (evs : list PageEvent) : Z :=
  foldl (fun w ev => match ev with Resize w' => w' | Created => w end) w0 evs.

(** ** The click listener (lines 115-121)

    [handleCanvasClick] is a new function at every render, closed over the
    props of that render.  The effect registers the function of the render
    it runs in and its cleanup removes that same one; it runs again when
    [colorMode] or [selectedColor] changed (the canvas element, the camera
    and the scene are taken as fixed). *)
Record Listener := {
  listener_render : nat;
  listener_colorMode : string;
  listener_selectedColor : string
}.

#[export] Instance Listener_eq_dec : EqDecision Listener.
Proof. solve_decision. Defined.

(** [target.addEventListener('click', f)]: a function already registered is
    not registered again. *)
Definition addEventListener (f : Listener) (ls : list Listener) : list Listener :=
  if bool_decide (f ∈ ls) then ls else ls ++ [f].

(** [target.removeEventListener('click', f)]. *)
Fixpoint removeEventListener (f : Listener) (ls : list Listener) : list Listener :=
  match ls with
  | [] => []
  | g :: ls' => if bool_decide (f = g) then ls' else g :: removeEventListener f ls'
  end.

Record Model := {
  store : Store;
  (** a number that grows with every event that renders the component
      again; it tells the functions of different renders apart *)
  renders : nat;
  (** the function the last run of the effect registered *)
  installed : Listener;
  (** the click listeners of [gl.domElement], in the order of registration *)
  listeners : list Listener
}.

Definition closure (render : nat) (st : Store) : Listener :=
  {| listener_render := render;
     listener_colorMode := colorMode st;
     listener_selectedColor := selectedColor st |}.

Definition model_mount (selectedColor colorMode : string) : Model :=
  let f := closure 1 (useState_init selectedColor colorMode) in
  {| store := mount selectedColor colorMode;
     renders := 1;
     installed := f;
     listeners := addEventListener f [] |}.

(** A state change of the page: the store changes as [change] says, the
    component renders again and the listener effect runs if its
    dependencies changed, cleanup first. *)
Definition model_update (change : Store -> Store) (m : Model) : Model :=
  let st' := change (store m) in
  let k := S (renders m) in
  if deps_changed (store m) st'
  then let f := closure k st' in
       {| store := st';
          renders := k;
          installed := f;
          listeners := addEventListener f
                         (removeEventListener (installed m) (listeners m)) |}
  else {| store := st';
          renders := k;
          installed := installed m;
          listeners := listeners m |}.

(** A registered function called for a click whose nearest intersected
    object is named [id]: lines 94 and 109-110 and [handleMeshClick], on
    the props the function was closed over and the mapping of the moment
    ([setMeshColors] is called with a function of [prev]). *)
Definition listener_call (f : Listener) (id : string) (st : Store) : Store :=
  setMeshColors
    (fun prev =>
       meshColors (applyPick id {| selectedColor := listener_selectedColor f;
                                   colorMode := listener_colorMode f;
                                   meshColors := prev |}))
    st.

(** The browser calls every registered function, in order. *)
Definition model_click (id : string) (m : Model) : Model :=
  {| store := foldl (fun st f => listener_call f id st) (store m) (listeners m);
     renders := S (renders m);
     installed := installed m;
     listeners := listeners m |}.

Definition model_step (op : Op) (m : Model) : Model :=
  match op with
  | SetPendingColor c => model_update (setSelectedColor c) m
  | SetMode md => model_update (setColorMode md) m
  | ApplyPick id => model_click id m
  end.

Inductive model_reachable : Model -> Prop :=
| model_reach_mount sel mode : model_reachable (model_mount sel mode)
| model_reach_step m op : model_reachable m -> model_reachable (model_step op m).

(** ** The materials (lines 123-145)

    Materials are objects that several nodes of the scene may share: a node
    holds a reference, and the materials live in a heap. *)
Module Scene.

(** The properties of a material the effect reads or writes;
    [needsUpdate] is what was last assigned to it. *)
Record Material := mkMaterial {
  color : string;
  metalness : option Q;
  roughness : option Q;
  envMapIntensity : option Q;
  needsUpdate : bool
}.

#[local] Unset Elimination Schemes.
Inductive Object3D :=
  mkObject (name : string) (isMesh : bool) (material : option nat)
           (children : list Object3D).
#[local] Set Elimination Schemes.

Definition name (o : Object3D) : string := let 'mkObject n _ _ _ := o in n.
Definition isMesh (o : Object3D) : bool := let 'mkObject _ b _ _ := o in b.
Definition material (o : Object3D) : option nat := let 'mkObject _ _ m _ := o in m.
Definition children (o : Object3D) : list Object3D := let 'mkObject _ _ _ cs := o in cs.

(** [x || d] on a number that may be [undefined]. *)
Definition num_or (x : option Q) (d : Q) : Q :=
  match x with
  | Some q => if Qeq_bool q 0 then d else q
  | None => d
  end.

(** Lines 129-134: [new THREE.MeshStandardMaterial({...})]. *)
Definition standardMaterial (c : string) : Material :=
  {| color := c;
     metalness := Some 0.8%Q;
     roughness := Some 0.2%Q;
     envMapIntensity := Some 1.5%Q;
     needsUpdate := false |}.

(** Lines 138-141, on a material that is there. *)
Definition enhance (m : Material) : Material :=
  let m1 := {| color := color m;
               metalness := metalness m;
               roughness := roughness m;
               envMapIntensity := Some (num_or (envMapIntensity m) 1);
               needsUpdate := needsUpdate m |} in
  match metalness m1 with
  | Some _ => {| color := color m1;
                 metalness := metalness m1;
                 roughness := roughness m1;
                 envMapIntensity := envMapIntensity m1;
                 needsUpdate := true |}
  | None => m1
  end.

(** Lines 126-143: the function given to [scene.traverse], on one node.  It
    returns the reference the node holds afterwards and the heap. *)
Definition visit (meshColors : gmap string string) (nm : string) (mesh : bool)
    (mat : option nat) (h : gmap nat Material) : option nat * gmap nat Material :=
  if mesh && JS.includes BRACES_MESHES nm then
    let color := colorFor meshColors nm in
    let r := fresh (dom h) in
    (Some r, <[r := standardMaterial color]> h)
  else if mesh then
    match mat with
    | Some r =>
        match h !! r with
        | Some m => (mat, <[r := enhance m]> h)
        | None => (mat, h)
        end
    | None => (mat, h)
    end
  else (mat, h).

(** [object.traverse(callback)]: the node, then its children in order. *)
Fixpoint traverse (meshColors : gmap string string) (o : Object3D)
    (h : gmap nat Material) : Object3D * gmap nat Material :=
  match o with
  | mkObject nm mesh mat cs =>
      let '(mat', h1) := visit meshColors nm mesh mat h in
      let '(cs', h2) :=
        (fix go (cs : list Object3D) (h : gmap nat Material) :=
           match cs with
           | [] => ([], h)
           | c :: rest =>
               let '(c', h') := traverse meshColors c h in
               let '(rest', h'') := go rest h' in
               (c' :: rest', h'')
           end) cs h1 in
      (mkObject nm mesh mat' cs', h2)
  end.

(** The children of a node, one after the other. *)
Fixpoint traverse_list (meshColors : gmap string string) (cs : list Object3D)
    (h : gmap nat Material) : list Object3D * gmap nat Material :=
  match cs with
  | [] => ([], h)
  | c :: rest =>
      let '(c', h') := traverse meshColors c h in
      let '(rest', h'') := traverse_list meshColors rest h' in
      (c' :: rest', h'')
  end.

(** What is on the screen: the tree with every reference replaced by the
    material it points to. *)
#[local] Unset Elimination Schemes.
Inductive View :=
  mkView (name : string) (isMesh : bool) (material : option Material)
         (children : list View).
#[local] Set Elimination Schemes.

Fixpoint view (h : gmap nat Material) (o : Object3D) : View :=
  match o with
  | mkObject nm mesh mat cs =>
      mkView nm mesh (mat ≫= (h !!.)) (map (view h) cs)
  end.

(** The meshes of the scene with their materials, the node first. *)
Fixpoint meshes (h : gmap nat Material) (o : Object3D)
    : list (string * option Material) :=
  match o with
  | mkObject nm mesh mat cs =>
      (if mesh then [(nm, mat ≫= (h !!.))] else [])
      ++ flat_map (meshes h) cs
  end.

(** The references held in the scene, and those held by meshes that are
    not in the registry. *)
Fixpoint refs (o : Object3D) : gset nat :=
  match o with
  | mkObject _ _ mat cs =>
      (match mat with Some r => {[r]} | None => ∅ end)
      ∪ ⋃ (map refs cs)
  end.

Fixpoint touched (o : Object3D) : gset nat :=
  match o with
  | mkObject nm mesh mat cs =>
      (if mesh && negb (JS.includes BRACES_MESHES nm)
       then match mat with Some r => {[r]} | None => ∅ end
       else ∅)
      ∪ ⋃ (map touched cs)
  end.

(** The scene without the references of the registry meshes. *)
Fixpoint erase (o : Object3D) : Object3D :=
  match o with
  | mkObject nm mesh mat cs =>
      mkObject nm mesh
        (if mesh && JS.includes BRACES_MESHES nm then None else mat)
        (map erase cs)
  end.

(** The registry meshes with the references they hold. *)
Fixpoint registry_refs (o : Object3D) : list (string * option nat) :=
  match o with
  | mkObject nm mesh mat cs =>
      (if mesh && JS.includes BRACES_MESHES nm then [(nm, mat)] else [])
      ++ flat_map registry_refs cs
  end.

(** Every reference of the scene points into the heap. *)
Definition well_formed (o : Object3D) (h : gmap nat Material) : Prop :=
  refs o ⊆ dom h.

(** The material at [r] once the materials at the references [T] went
    through lines 138-141. *)
Definition enhance_in (T : gset nat) (r : nat) (m : option Material)
    : option Material :=
  if decide (r ∈ T) then enhance <$> m else m.

(** A registry mesh holds a reference made after the references [D], to the
    standard material in its colour. *)
Definition fresh_standard (meshColors : gmap string string) (D : gset nat)
    (h : gmap nat Material) (entry : string * option nat) : Prop :=
  exists r, snd entry = Some r
            ∧ (r ∉ D)
            ∧ (h !! r) = Some (standardMaterial (colorFor meshColors (fst entry))).

(** What the scene shows when every registry mesh has the standard
    material in its colour. *)
Fixpoint shown (meshColors : gmap string string) (h : gmap nat Material)
    (o : Object3D) : View :=
  match o with
  | mkObject nm mesh mat cs =>
      mkView nm mesh
        (if mesh && JS.includes BRACES_MESHES nm
         then Some (standardMaterial (colorFor meshColors nm))
         else mat ≫= (h !!.))
        (map (shown meshColors h) cs)
  end.

(** A scene to run the effect on: a brace and a tooth with materials of
    their own, and a gum and a line that share a third one. *)
Definition sample_heap : gmap nat Material :=
  {[ 0%nat := {| color := "grey"; metalness := Some 1%Q; roughness := Some 0.5%Q;
                 envMapIntensity := Some 1%Q; needsUpdate := false |};
     1%nat := {| color := "ivory"; metalness := Some 0%Q; roughness := Some 0.9%Q;
                 envMapIntensity := Some 0%Q; needsUpdate := false |};
     2%nat := {| color := "pink"; metalness := None; roughness := None;
                 envMapIntensity := None; needsUpdate := false |} ]}.

Definition sample_scene : Object3D :=
  mkObject "Scene" false None
    [ mkObject "Group" false None
        [ mkObject "BezierCircle005_Material005_0001" true (Some 0%nat) [];
          mkObject "Tooth" true (Some 1%nat) [] ];
      mkObject "Gum" true (Some 2%nat) [];
      mkObject "Outline" false (Some 2%nat) [] ].

End Scene.

(** Lines 124-145: the effect, run on the scene and its materials. *)
Definition updateMaterials (meshColors : gmap string string)
    (scene : Scene.Object3D) (h : gmap nat Scene.Material)
    : Scene.Object3D * gmap nat Scene.Material :=
  Scene.traverse meshColors scene h.

(** * Properties *)

(** ** The registry *)

Lemma BRACES_MESHES_length : length BRACES_MESHES = 32%nat.
Proof. reflexivity. Qed.

Lemma BRACES_MESHES_NoDup : NoDup BRACES_MESHES.
Proof. apply (bool_decide_unpack _). vm_compute. exact I. Qed.

Lemma includes_spec (arr : list string) (x : string) :
  JS.includes arr x = true <-> x ∈ arr.
Proof. unfold JS.includes. apply bool_decide_eq_true. Qed.

Lemma includes_false (arr : list string) (x : string) :
  x ∉ arr -> JS.includes arr x = false.
Proof. intros Hx. unfold JS.includes. by apply bool_decide_eq_false. Qed.

Lemma truthy_spec (s : string) : JS.truthy s = true <-> s ≠ "".
Proof. destruct s; simpl; split; congruence. Qed.

Lemma truthy_false (s : string) : JS.truthy s = false <-> s = "".
Proof. destruct s; simpl; split; congruence. Qed.

(** ** The broadcast map *)

Lemma foldl_insert_lookup (c : string) (l : list string)
    (acc : gmap string string) (p : string) :
  foldl (fun acc k => <[k := c]> acc) acc l !! p
  = if decide (p ∈ l) then Some c else acc !! p.
Proof.
  revert acc. induction l as [|k l IH]; intros acc; cbn [foldl].
  - rewrite decide_False; [done | apply not_elem_of_nil].
  - rewrite IH.
    destruct (decide (p ∈ l)) as [Hl|Hl].
    + rewrite decide_True; [done | by right].
    + destruct (decide (p = k)) as [->|Hk].
      * rewrite lookup_insert_eq. rewrite decide_True; [done | by left].
      * rewrite lookup_insert_ne by done.
        rewrite decide_False; [done |].
        intros [?|?]%elem_of_cons; contradiction.
Qed.

Lemma newColors_lookup (c p : string) :
  newColors c !! p = if decide (p ∈ BRACES_MESHES) then Some c else None.
Proof. unfold newColors. by rewrite foldl_insert_lookup, lookup_empty. Qed.

Lemma uniform_lookup (c p : string) :
  uniform c !! p = if decide (p ∈ allParts) then Some c else None.
Proof.
  unfold uniform. generalize allParts as l.
  induction l as [|k l IH]; cbn [fmap list_fmap list_to_map foldr].
  - rewrite lookup_empty. rewrite decide_False; [done | apply not_elem_of_nil].
  - destruct (decide (p = k)) as [->|Hk].
    + rewrite lookup_insert_eq. rewrite decide_True; [done | by left].
    + rewrite lookup_insert_ne by done. rewrite IH.
      destruct (decide (p ∈ l)) as [Hl|Hl].
      * rewrite decide_True; [done | by right].
      * rewrite decide_False; [done |].
        intros [?|?]%elem_of_cons; contradiction.
Qed.

Lemma newColors_uniform (c : string) : newColors c = uniform c.
Proof.
  apply map_eq. intros p. by rewrite newColors_lookup, uniform_lookup.
Qed.

Lemma uniform_dom (c : string) : dom (uniform c) = list_to_set allParts.
Proof.
  apply set_eq. intros p. rewrite elem_of_dom, uniform_lookup, elem_of_list_to_set.
  destruct (decide (p ∈ allParts)) as [Hp|Hp]; split; intros Hq; try done.
Qed.

Lemma colorFor_uniform (c p : string) :
  c ≠ "" -> p ∈ allParts -> colorFor (uniform c) p = c.
Proof.
  intros Hc Hp. unfold colorFor. rewrite uniform_lookup, decide_True by done.
  unfold JS.or_else. by apply truthy_spec in Hc as ->.
Qed.

(** ** How the operations act on the three fields *)

Ltac string_cases :=
  repeat match goal with
  | |- context [String.eqb ?a ?b] => destruct (String.eqb_spec a b)
  | |- context [JS.truthy ?s] => destruct (JS.truthy s) eqn:?
  | |- context [JS.includes ?l ?s] => destruct (JS.includes l s) eqn:?
  end.

Lemma applyColorsEffect_fields (st : Store) :
  selectedColor (applyColorsEffect st) = selectedColor st
  ∧ colorMode (applyColorsEffect st) = colorMode st.
Proof. unfold applyColorsEffect. by string_cases. Qed.

Lemma applyColorsEffect_meshColors (st : Store) :
  meshColors (applyColorsEffect st)
  = if bool_decide (colorMode st = All ∧ selectedColor st ≠ "")
    then uniform (selectedColor st) else meshColors st.
Proof.
  unfold applyColorsEffect.
  destruct (String.eqb_spec (colorMode st) All) as [Hm|Hm];
    destruct (JS.truthy (selectedColor st)) eqn:Ht; simpl.
  - apply truthy_spec in Ht.
    rewrite bool_decide_eq_true_2 by done. apply newColors_uniform.
  - apply truthy_false in Ht.
    rewrite bool_decide_eq_false_2; [done | tauto].
  - rewrite bool_decide_eq_false_2; [done | tauto].
  - rewrite bool_decide_eq_false_2; [done | tauto].
Qed.

Lemma deps_changed_spec (old new : Store) :
  deps_changed old new = false
  <-> selectedColor old = selectedColor new ∧ colorMode old = colorMode new.
Proof.
  unfold deps_changed.
  destruct (String.eqb_spec (selectedColor old) (selectedColor new));
    destruct (String.eqb_spec (colorMode old) (colorMode new));
    simpl; split; intros; try done; tauto.
Qed.

Lemma setSelectedColor_fields (c : string) (st : Store) :
  selectedColor (setSelectedColor c st) = c
  ∧ colorMode (setSelectedColor c st) = colorMode st.
Proof.
  unfold setSelectedColor, rerender.
  destruct (deps_changed _ _); [| done].
  match goal with
  | |- context [applyColorsEffect ?s] =>
      by destruct (applyColorsEffect_fields s) as [-> ->]
  end.
Qed.

Lemma setColorMode_fields (m : string) (st : Store) :
  selectedColor (setColorMode m st) = selectedColor st
  ∧ colorMode (setColorMode m st) = m.
Proof.
  unfold setColorMode, rerender.
  destruct (deps_changed _ _); [| done].
  match goal with
  | |- context [applyColorsEffect ?s] =>
      by destruct (applyColorsEffect_fields s) as [-> ->]
  end.
Qed.

Lemma handleMeshClick_fields (st : Store) (meshName : string) :
  selectedColor (handleMeshClick st meshName) = selectedColor st
  ∧ colorMode (handleMeshClick st meshName) = colorMode st.
Proof. unfold handleMeshClick. by string_cases. Qed.

Lemma applyPick_fields (id : string) (st : Store) :
  selectedColor (applyPick id st) = selectedColor st
  ∧ colorMode (applyPick id st) = colorMode st.
Proof.
  unfold applyPick.
  destruct (negb _); [done |].
  destruct (JS.includes _ _); [apply handleMeshClick_fields | done].
Qed.

(** The mapping after each operation. *)

Lemma setSelectedColor_meshColors (c : string) (st : Store) :
  meshColors (setSelectedColor c st)
  = if bool_decide (c ≠ selectedColor st ∧ colorMode st = All ∧ c ≠ "")
    then uniform c else meshColors st.
Proof.
  unfold setSelectedColor, rerender.
  destruct (deps_changed _ _) eqn:Hd.
  - rewrite applyColorsEffect_meshColors; simpl.
    assert (c ≠ selectedColor st) as Hc.
    { intros ->. destruct st. by rewrite (proj2 (deps_changed_spec _ _)) in Hd. }
    erewrite bool_decide_ext; [reflexivity | tauto].
  - apply deps_changed_spec in Hd as [Hs _]; simpl in *.
    rewrite bool_decide_eq_false_2; [done | intros [? _]; congruence].
Qed.

Lemma setColorMode_meshColors (m : string) (st : Store) :
  meshColors (setColorMode m st)
  = if bool_decide (m = All ∧ colorMode st ≠ All ∧ selectedColor st ≠ "")
    then uniform (selectedColor st) else meshColors st.
Proof.
  unfold setColorMode, rerender.
  destruct (deps_changed _ _) eqn:Hd.
  - rewrite applyColorsEffect_meshColors; simpl.
    assert (colorMode st ≠ m) as Hm.
    { intros <-. destruct st. by rewrite (proj2 (deps_changed_spec _ _)) in Hd. }
    erewrite bool_decide_ext; [reflexivity |]. split; [intros [-> ?]; tauto | tauto].
  - apply deps_changed_spec in Hd as [_ Hm]; simpl in *.
    rewrite bool_decide_eq_false_2; [done | intros (? & ? & _); congruence].
Qed.

Lemma handleMeshClick_meshColors (st : Store) (meshName : string) :
  meshColors (handleMeshClick st meshName)
  = if bool_decide (colorMode st = Single ∧ selectedColor st ≠ "")
    then <[meshName := selectedColor st]> (meshColors st) else meshColors st.
Proof.
  unfold handleMeshClick.
  destruct (String.eqb_spec (colorMode st) Single) as [Hm|Hm];
    destruct (JS.truthy (selectedColor st)) eqn:Ht; simpl.
  - apply truthy_spec in Ht. by rewrite bool_decide_eq_true_2.
  - apply truthy_false in Ht. rewrite bool_decide_eq_false_2; [done | tauto].
  - rewrite bool_decide_eq_false_2; [done | tauto].
  - rewrite bool_decide_eq_false_2; [done | tauto].
Qed.

Lemma applyPick_meshColors (id : string) (st : Store) :
  meshColors (applyPick id st)
  = if bool_decide (colorMode st = Single ∧ id ∈ allParts ∧ selectedColor st ≠ "")
    then <[id := selectedColor st]> (meshColors st) else meshColors st.
Proof.
  unfold applyPick.
  destruct (String.eqb_spec (colorMode st) Single) as [Hm|Hm]; simpl.
  - destruct (JS.includes BRACES_MESHES id) eqn:Hi.
    + apply includes_spec in Hi. rewrite handleMeshClick_meshColors.
      erewrite bool_decide_ext; [reflexivity |]. unfold allParts. tauto.
    + rewrite bool_decide_eq_false_2; [done |].
      intros (_ & Hin & _). unfold allParts in Hin.
      apply includes_spec in Hin. congruence.
  - rewrite bool_decide_eq_false_2; [done | tauto].
Qed.

(** ** Invariants of the store *)

Lemma All_neq_Single : All ≠ Single.
Proof. discriminate. Qed.

Lemma step_fields (op : Op) (st : Store) :
  (match op with
   | SetPendingColor c => selectedColor (step op st) = c
   | _ => selectedColor (step op st) = selectedColor st
   end)
  ∧ (match op with
     | SetMode m => colorMode (step op st) = m
     | _ => colorMode (step op st) = colorMode st
     end).
Proof.
  destruct op as [c|m|id]; simpl.
  - apply setSelectedColor_fields.
  - apply setColorMode_fields.
  - apply applyPick_fields.
Qed.

Lemma mount_uniform (sel mode : string) : uniform_in_all (mount sel mode).
Proof.
  unfold uniform_in_all, mount.
  destruct (applyColorsEffect_fields (useState_init sel mode)) as [-> ->].
  rewrite applyColorsEffect_meshColors. simpl. intros Hm Hs.
  by rewrite bool_decide_eq_true_2.
Qed.

Lemma step_uniform (op : Op) (st : Store) :
  uniform_in_all st -> uniform_in_all (step op st).
Proof.
  unfold uniform_in_all. intros Hinv.
  destruct (step_fields op st) as [Hs Hm].
  destruct op as [c|m|id]; simpl in *; rewrite Hs, Hm.
  - intros HAll Hc. rewrite setSelectedColor_meshColors.
    case_bool_decide as Hd; [done |].
    destruct (decide (c = selectedColor st)) as [->|Hne]; [by apply Hinv |].
    tauto.
  - intros -> Hc. rewrite setColorMode_meshColors.
    case_bool_decide as Hd; [done |].
    destruct (decide (colorMode st = All)) as [HAll|Hne]; [by apply Hinv |].
    tauto.
  - intros HAll Hc. rewrite applyPick_meshColors.
    rewrite bool_decide_eq_false_2; [by apply Hinv |].
    intros [HS _]. rewrite HAll in HS. by apply All_neq_Single.
Qed.

Lemma reachable_uniform (st : Store) : reachable st -> uniform_in_all st.
Proof.
  induction 1 as [sel mode | st op _ IH];
    [apply mount_uniform | by apply step_uniform].
Qed.

Lemma step_keys (op : Op) (st : Store) :
  keys_known st -> keys_known (step op st).
Proof.
  unfold keys_known. intros Hinv.
  destruct op as [c|m|id]; cbn [step].
  - unfold setPendingColor. rewrite setSelectedColor_meshColors.
    case_bool_decide; [by rewrite uniform_dom | done].
  - unfold setMode. rewrite setColorMode_meshColors.
    case_bool_decide; [by rewrite uniform_dom | done].
  - rewrite applyPick_meshColors.
    case_bool_decide as Hd; [| done].
    destruct Hd as (_ & Hid & _). rewrite dom_insert_L.
    apply union_least; [| done].
    rewrite singleton_subseteq_l. by rewrite elem_of_list_to_set.
Qed.

Lemma run_keys (ops : list Op) (st : Store) :
  keys_known st -> keys_known (run ops st).
Proof.
  revert st. induction ops as [|op ops IH]; intros st Hst; [done |].
  apply IH. by apply step_keys.
Qed.

Lemma mount_keys (sel mode : string) : keys_known (mount sel mode).
Proof.
  unfold keys_known, mount. rewrite applyColorsEffect_meshColors. simpl.
  case_bool_decide; [by rewrite uniform_dom | by rewrite dom_empty_L].
Qed.

Lemma reachable_keys (st : Store) : reachable st -> keys_known st.
Proof.
  induction 1 as [sel mode | st op _ IH];
    [apply mount_keys | by apply step_keys].
Qed.

Lemma reachable_run (ops : list Op) (st : Store) :
  reachable st -> reachable (run ops st).
Proof.
  revert st. induction ops as [|op ops IH]; intros st Hst; [done |].
  apply IH. by constructor.
Qed.

Lemma ui_reachable_reachable (st : Store) : ui_reachable st -> reachable st.
Proof. induction 1; by constructor. Qed.

Lemma palette_hex_nonempty (entry : PaletteEntry) :
  entry ∈ COLORS -> hex entry ≠ "".
Proof.
  intros Hin. apply truthy_spec.
  assert (Forall (fun e => JS.truthy (hex e) = true) COLORS) as Hall.
  { repeat constructor. }
  by apply (proj1 (Forall_forall _ _) Hall).
Qed.

Lemma ui_reachable_pending (st : Store) :
  ui_reachable st -> exists entry, entry ∈ COLORS ∧ selectedColor st = hex entry.
Proof.
  induction 1 as [entry mode Hin _ | st op _ IH Hev].
  - exists entry. split; [done |]. unfold mount.
    by destruct (applyColorsEffect_fields (useState_init (hex entry) mode)) as [-> _].
  - destruct (step_fields op st) as [Hs _].
    destruct Hev; simpl in Hs |- *; rewrite Hs; eauto.
Qed.

(** ** The resolver *)

Section ResolverFacts.
Context `{api : THREE.Api}.

Lemma resolve_refs (refs : Refs) event rect camera scene :
  fst (resolve refs event rect camera scene)
  = {| mouse := Vector2.mk (ndc_x event rect) (ndc_y event rect);
       raycaster := THREE.setFromCamera
                      (Vector2.mk (ndc_x event rect) (ndc_y event rect)) camera |}.
Proof. reflexivity. Qed.

Lemma resolve_picked (refs : Refs) event rect camera scene :
  snd (resolve refs event rect camera scene)
  = match hits event rect camera scene with
    | i :: _ =>
        if bool_decide (THREE.name (THREE.object i) ∈ allParts)
        then Some (THREE.name (THREE.object i))
        else None
    | [] => None
    end.
Proof. reflexivity. Qed.

(** A click changes the store as [applyPick] on the name of the nearest
    intersected object does, and not at all when nothing is intersected. *)
Lemma handleCanvasClick_applyPick (st : Store) (refs : Refs)
    event rect camera scene :
  fst (handleCanvasClick st refs event rect camera scene)
  = match hits event rect camera scene with
    | i :: _ => applyPick (THREE.name (THREE.object i)) st
    | [] => st
    end.
Proof.
  unfold handleCanvasClick, applyPick.
  destruct (negb (colorMode st =? Single)%string) eqn:Hm.
  - by destruct (hits event rect camera scene).
  - destruct (resolve refs event rect camera scene) as [refs' picked] eqn:Hr.
    assert (picked = snd (resolve refs event rect camera scene)) as ->
      by (by rewrite Hr).
    unfold resolve, hits; cbn [snd fst mouse raycaster Vector2.x Vector2.y].
    destruct (THREE.intersectObjects _ _ _) as [|i rest]; [done |].
    cbn [fst]. by destruct (JS.includes _ _).
Qed.

Lemma head_nearest `{!THREE.NearestFirst} event rect camera scene i rest :
  hits event rect camera scene = i :: rest ->
  forall j, j ∈ hits event rect camera scene -> THREE.nearer i j.
Proof.
  intros Hh j Hj. pose proof (THREE.nearest_first
    (THREE.setFromCamera (Vector2.mk (ndc_x event rect) (ndc_y event rect)) camera)
    (THREE.children scene) true) as Hs.
  fold (hits event rect camera scene) in Hs. rewrite Hh in Hs, Hj.
  apply StronglySorted_inv in Hs as [_ Hall].
  apply elem_of_cons in Hj as [->|Hj].
  - unfold THREE.nearer. apply Qle_refl.
  - by apply (proj1 (Forall_forall _ _) Hall).
Qed.

End ResolverFacts.

(** ** The small ray caster returns the nearest first *)

Lemma Flat_insert_hit_Forall (P : THREE.Intersection Flat.Obj -> Prop) i l :
  P i -> Forall P l -> Forall P (Flat.insert_hit i l).
Proof.
  intros Hi. induction 1 as [|j l Hj Hl IH]; simpl.
  - by repeat constructor.
  - destruct (Qle_bool _ _); repeat constructor; done.
Qed.

Lemma Flat_insert_hit_sorted (i : THREE.Intersection Flat.Obj)
    (l : list (THREE.Intersection Flat.Obj)) :
  StronglySorted (@THREE.nearer Flat.api) l ->
  StronglySorted (@THREE.nearer Flat.api) (Flat.insert_hit i l).
Proof.
  induction 1 as [|j l Hs IH Hall]; simpl.
  - by repeat constructor.
  - destruct (Qle_bool _ _) eqn:Hle.
    + apply Qle_bool_iff in Hle.
      constructor; [by constructor |].
      constructor; [done |].
      eapply Forall_impl; [exact Hall |].
      intros k Hk. unfold THREE.nearer in *. by eapply Qle_trans.
    + constructor; [done |].
      apply Flat_insert_hit_Forall; [| done].
      unfold THREE.nearer. apply Qlt_le_weak, Qnot_le_lt.
      intros Hc. apply not_true_iff_false in Hle. apply Hle.
      by apply Qle_bool_iff.
Qed.

Lemma Flat_nearest_first : @THREE.NearestFirst Flat.api.
Proof.
  intros ray objects recursive. cbn. unfold Flat.intersectObjects.
  generalize (flat_map (Flat.raycast ray recursive) objects) as found.
  induction found as [|i l IH]; simpl.
  - constructor.
  - by apply Flat_insert_hit_sorted.
Qed.

(** * The claims *)

(** C1. For every colour [c] (a non-empty string, as every palette entry
    is) and every state the store can be in after [BracesModel] is
    mounted: after [setMode(All)] and then [setPendingColor(c)] the mapping
    is exactly [{p: c for p in allParts()}], its keys are the 32 distinct
    registry names, and [colorFor(p)] is [c] for every known part [p]. *)
Theorem all_mode_selection_is_broadcast (st : Store) (c : string) :
  reachable st -> c ≠ "" ->
  let st' := run [SetMode All; SetPendingColor c] st in
  meshColors st' = uniform c
  ∧ dom (meshColors st') = list_to_set allParts
  ∧ length allParts = 32%nat ∧ NoDup allParts
  ∧ forall p, p ∈ allParts -> colorFor (meshColors st') p = c.
Proof.
  intros Hreach Hc st'.
  assert (meshColors st' = uniform c) as Hst'.
  { subst st'. cbn [run foldl step]. unfold setPendingColor.
    rewrite setSelectedColor_meshColors.
    destruct (setColorMode_fields All st) as [Hs Hm]. fold setMode in Hs, Hm.
    rewrite Hs, Hm.
    case_bool_decide as Hd; [done |].
    destruct (decide (c = selectedColor st)) as [Heq|Hne]; [| tauto].
    assert (reachable (setMode All st)) as Hr
      by apply (reach_step st (SetMode All) Hreach).
    apply reachable_uniform in Hr. unfold uniform_in_all in Hr.
    rewrite Hs, Hm, <- Heq in Hr. by apply Hr. }
  rewrite Hst'. split; [done |]. split; [apply uniform_dom |].
  split; [apply BRACES_MESHES_length |].
  split; [apply BRACES_MESHES_NoDup |].
  intros p Hp. by apply colorFor_uniform.
Qed.

Lemma all_mode_selection_is_broadcast_witness :
  let st' := run [SetMode All; SetPendingColor "#FF0000"] (mount "#0000FF" "all") in
  meshColors st' = uniform "#FF0000"
  ∧ dom (meshColors st') = list_to_set allParts
  ∧ length allParts = 32%nat ∧ NoDup allParts
  ∧ forall p, p ∈ allParts -> colorFor (meshColors st') p = "#FF0000".
Proof.
  apply (all_mode_selection_is_broadcast (mount "#0000FF" "all") "#FF0000").
  - apply reach_mount.
  - discriminate.
Defined.

(** C2, as the code has it.  [setMode(m)] keeps the pending colour and
    leaves the mapping as it is unless [m] is [All], the mode before was
    not [All] and the pending colour is not empty; then the effect of lines
    82-90, which depends on [colorMode], rewrites the mapping to
    [{p: pendingColor for p in allParts()}] at once. *)
Theorem setMode_keeps_mapping_unless_entering_all (m : string) (st : Store) :
  selectedColor (setMode m st) = selectedColor st
  ∧ colorMode (setMode m st) = m
  ∧ meshColors (setMode m st)
    = if bool_decide (m = All ∧ colorMode st ≠ All ∧ selectedColor st ≠ "")
      then uniform (selectedColor st)
      else meshColors st.
Proof.
  unfold setMode. destruct (setColorMode_fields m st) as [Hs Hm].
  by rewrite Hs, Hm, setColorMode_meshColors.
Qed.

(** C2 as stated fails: in [Single] mode with red pending over a blue
    mapping, [setMode(All)] rewrites every entry to red. *)
Lemma setMode_all_rewrites_mapping :
  let st := run [SetMode Single; SetPendingColor "#FF0000"] (mount "#0000FF" "all") in
  let p := "BezierCircle005_Material005_0001" in
  reachable st
  ∧ meshColors st !! p = Some "#0000FF"
  ∧ meshColors (setMode All st) !! p = Some "#FF0000"
  ∧ meshColors (setMode All st) ≠ meshColors st.
Proof.
  intros st p.
  assert (meshColors st !! p = Some "#0000FF") as H1 by (by vm_compute).
  assert (meshColors (setMode All st) !! p = Some "#FF0000") as H2
    by (by vm_compute).
  split; [apply reachable_run, reach_mount |].
  split; [done |]. split; [done |].
  intros Heq. rewrite Heq, H1 in H2. discriminate.
Qed.

(** C4. For distinct known parts and (non-empty) colours, from any state:
    after [setMode(Single)], [setPendingColor(c1)], [applyPick(p1)],
    [setPendingColor(c2)], [applyPick(p2)], part [p1] has colour [c1] and
    part [p2] has colour [c2]. *)
Theorem single_mode_picks_are_independent (st : Store) (p1 p2 c1 c2 : string) :
  p1 ∈ allParts -> p2 ∈ allParts -> p1 ≠ p2 -> c1 ≠ "" -> c2 ≠ "" ->
  let st' := run [SetMode Single; SetPendingColor c1; ApplyPick p1;
                  SetPendingColor c2; ApplyPick p2] st in
  colorFor (meshColors st') p1 = c1 ∧ colorFor (meshColors st') p2 = c2.
Proof.
  intros Hp1 Hp2 Hne Hc1 Hc2 st'. subst st'. cbn [run foldl step].
  unfold setPendingColor, setMode.
  set (s1 := setColorMode Single st).
  set (s2 := setSelectedColor c1 s1).
  set (s3 := applyPick p1 s2).
  set (s4 := setSelectedColor c2 s3).
  destruct (setColorMode_fields Single st) as [_ Hm1]. fold s1 in Hm1.
  destruct (setSelectedColor_fields c1 s1) as [Hs2 Hm2]. fold s2 in Hs2, Hm2.
  destruct (applyPick_fields p1 s2) as [_ Hm3]. fold s3 in Hm3.
  destruct (setSelectedColor_fields c2 s3) as [Hs4 Hm4]. fold s4 in Hs4, Hm4.
  rewrite Hm1 in Hm2. rewrite Hm2 in Hm3. rewrite Hm3 in Hm4.
  assert (meshColors s3 !! p1 = Some c1) as H3.
  { subst s3. rewrite applyPick_meshColors, Hs2, Hm2.
    rewrite bool_decide_eq_true_2 by done. apply lookup_insert_eq. }
  assert (meshColors s4 = meshColors s3) as H4.
  { subst s4. rewrite setSelectedColor_meshColors, Hm3.
    rewrite bool_decide_eq_false_2; [done |].
    intros (_ & HS & _). symmetry in HS. by apply All_neq_Single. }
  rewrite applyPick_meshColors, Hs4, Hm4.
  rewrite bool_decide_eq_true_2 by done.
  unfold colorFor.
  rewrite lookup_insert_ne by done. rewrite lookup_insert_eq, H4, H3.
  unfold JS.or_else.
  apply truthy_spec in Hc1 as ->. by apply truthy_spec in Hc2 as ->.
Qed.

Lemma single_mode_picks_are_independent_witness :
  let st' := run [SetMode Single; SetPendingColor "#FF0000";
                  ApplyPick "BezierCircle005_Material005_0001";
                  SetPendingColor "#008000";
                  ApplyPick "BezierCircle006_Material005_0016"] initial in
  colorFor (meshColors st') "BezierCircle005_Material005_0001" = "#FF0000"
  ∧ colorFor (meshColors st') "BezierCircle006_Material005_0016" = "#008000".
Proof.
  apply (single_mode_picks_are_independent initial
           "BezierCircle005_Material005_0001"
           "BezierCircle006_Material005_0016" "#FF0000" "#008000").
  - apply (bool_decide_unpack _). vm_compute. exact I.
  - apply (bool_decide_unpack _). vm_compute. exact I.
  - discriminate.
  - discriminate.
  - discriminate.
Defined.

(** C5. When the mode is not [Single] (so in [All] mode), a pick of any
    part changes nothing: [applyPick] and [handleMeshClick] return the
    store they were given, so [colorFor] is the same for every part, and
    the click handler returns at line 94 before it touches anything.  The
    functions are total: there is no error to raise. *)
Theorem pick_outside_single_mode_is_dropped `{api : THREE.Api} (st : Store) (p : string) :
  colorMode st ≠ Single ->
  applyPick p st = st
  ∧ handleMeshClick st p = st
  ∧ (forall q, colorFor (meshColors (applyPick p st)) q = colorFor (meshColors st) q)
  ∧ (forall refs event rect camera scene,
       handleCanvasClick st refs event rect camera scene = (st, refs)).
Proof.
  intros Hm.
  assert ((colorMode st =? Single)%string = false) as Hb
    by (by apply String.eqb_neq).
  assert (applyPick p st = st) as Hpick
    by (unfold applyPick; by rewrite Hb).
  split; [done |].
  split; [unfold handleMeshClick; by rewrite Hb |].
  split; [intros q; by rewrite Hpick |].
  intros refs event rect camera scene.
  unfold handleCanvasClick. by rewrite Hb.
Qed.

Lemma pick_outside_single_mode_is_dropped_witness :
  let st := mount "#FF0000" "all" in
  let p := "BezierCircle005_Material005_0001" in
  applyPick p st = st
  ∧ handleMeshClick st p = st
  ∧ (forall q, colorFor (meshColors (applyPick p st)) q = colorFor (meshColors st) q)
  ∧ (forall refs event rect camera scene,
       handleCanvasClick (api := Flat.api) st refs event rect camera scene = (st, refs)).
Proof.
  apply (pick_outside_single_mode_is_dropped (api := Flat.api)
           (mount "#FF0000" "all") "BezierCircle005_Material005_0001").
  discriminate.
Defined.

(** C6. For an identifier that is not a registry name, in any state and
    any mode, [applyPick] returns the store it was given; so does a click
    whose nearest intersected object bears that name (line 109). *)
Theorem pick_of_unknown_id_is_dropped `{api : THREE.Api} (st : Store) (id : string) :
  id ∉ allParts ->
  applyPick id st = st
  ∧ (forall refs event rect camera scene i rest,
       hits event rect camera scene = i :: rest ->
       THREE.name (THREE.object i) = id ->
       fst (handleCanvasClick st refs event rect camera scene) = st).
Proof.
  intros Hid.
  assert (applyPick id st = st) as Hpick.
  { unfold applyPick. rewrite includes_false by done. by destruct (negb _). }
  split; [done |].
  intros refs event rect camera scene i rest Hh Hn.
  by rewrite handleCanvasClick_applyPick, Hh, Hn.
Qed.

Lemma pick_of_unknown_id_is_dropped_witness :
  let st := run [SetMode Single; SetPendingColor "#FF0000"] (mount "#0000FF" "all") in
  colorMode st = Single
  ∧ applyPick "Tooth" st = st
  ∧ fst (handleCanvasClick (api := Flat.api) st Flat.refs0 Flat.centre_click
           Flat.canvas tt Flat.occluded_scene) = st.
Proof.
  intros st. split; [reflexivity |].
  assert ("Tooth" ∉ allParts) as Hid.
  { apply (bool_decide_unpack _). vm_compute. exact I. }
  destruct (pick_of_unknown_id_is_dropped (api := Flat.api) st "Tooth" Hid)
    as [Hpick Hclick].
  split; [exact Hpick |].
  eapply (Hclick Flat.refs0 Flat.centre_click Flat.canvas tt Flat.occluded_scene).
  - vm_compute. reflexivity.
  - reflexivity.
Defined.

(** C7. From a store whose mapping is empty, as the first render has it,
    and also after the effect has run on it as it does at mount, any
    sequence of [setPendingColor], [setMode] and [applyPick] leaves a
    mapping whose keys are all registry names. *)
Theorem mapping_keys_stay_in_registry (st0 : Store) (ops : list Op) :
  meshColors st0 = ∅ ->
  dom (meshColors (run ops st0)) ⊆ list_to_set allParts
  ∧ dom (meshColors (run ops (applyColorsEffect st0))) ⊆ list_to_set allParts.
Proof.
  intros Hempty. split; apply run_keys; unfold keys_known.
  - rewrite Hempty, dom_empty_L. apply empty_subseteq.
  - rewrite applyColorsEffect_meshColors.
    case_bool_decide; [by rewrite uniform_dom |].
    rewrite Hempty, dom_empty_L. apply empty_subseteq.
Qed.

Lemma mapping_keys_stay_in_registry_witness :
  let ops := [SetMode Single; SetPendingColor "#FF0000"; ApplyPick "Tooth";
              ApplyPick "BezierCircle005_Material005_0002"; SetMode All] in
  dom (meshColors (run ops initial)) ⊆ list_to_set allParts
  ∧ dom (meshColors (run ops (mount "#0000FF" "all"))) ⊆ list_to_set allParts.
Proof.
  intros ops. apply (mapping_keys_stay_in_registry initial ops). reflexivity.
Defined.

(** C10. The first render has an empty mapping and ['#0000FF'] pending; a
    part without an entry is shown in ['#0000FF'], so every known part is,
    in the first render and after the mount effect alike.  In every state
    the page can reach, the pending colour is a palette entry and so is not
    empty, and a pick that reaches [handleMeshClick] in [Single] mode is
    always written. *)
Theorem startup_state_and_pending_color :
  meshColors initial = ∅
  ∧ selectedColor initial = "#0000FF"
  ∧ (forall mc p, p ∈ allParts -> mc !! p = None -> colorFor mc p = "#0000FF")
  ∧ (forall p, p ∈ allParts -> colorFor (meshColors initial) p = "#0000FF")
  ∧ (forall p, p ∈ allParts ->
       colorFor (meshColors (mount "#0000FF" "all")) p = "#0000FF")
  ∧ ui_reachable (mount "#0000FF" "all")
  ∧ (forall st, ui_reachable st ->
       selectedColor st ≠ ""
       ∧ forall id, colorMode st = Single ->
           meshColors (handleMeshClick st id)
           = <[id := selectedColor st]> (meshColors st)).
Proof.
  split; [reflexivity |]. split; [reflexivity |].
  split; [intros mc p _ Hp; unfold colorFor; by rewrite Hp |].
  split; [intros p _; reflexivity |].
  split.
  { intros p Hp. unfold mount. rewrite applyColorsEffect_meshColors.
    cbn [useState_init selectedColor colorMode].
    rewrite bool_decide_eq_true_2 by done. by apply colorFor_uniform. }
  split.
  { apply (ui_mount {| name := "Blue"; hex := "#0000FF" |} All).
    - by apply (list_elem_of_lookup_2 _ 6%nat).
    - by left. }
  intros st Hst.
  destruct (ui_reachable_pending st Hst) as (entry & Hin & Hsel).
  assert (selectedColor st ≠ "") as Hne
    by (rewrite Hsel; by apply palette_hex_nonempty).
  split; [done |].
  intros id Hm. rewrite handleMeshClick_meshColors.
  by rewrite bool_decide_eq_true_2.
Qed.

Lemma startup_state_and_pending_color_witness :
  let st := run [SetMode Single] (mount "#0000FF" "all") in
  selectedColor st ≠ ""
  ∧ meshColors (handleMeshClick st "BezierCircle005_Material005_0001")
    = <["BezierCircle005_Material005_0001" := selectedColor st]> (meshColors st).
Proof.
  intros st.
  destruct startup_state_and_pending_color as (_ & _ & _ & _ & _ & Hui & Hall).
  destruct (Hall st (ui_step _ (SetMode Single) Hui ui_mode_single)) as [Hne Hclick].
  split; [exact Hne |]. apply Hclick. reflexivity.
Defined.

(** C3. Whatever the pointer, the canvas, the camera and the scene: the
    resolver asks for the intersections of the ray with the children of the
    scene, recursively, and looks at the first alone, which is a nearest
    one since three.js returns them nearest first.  It returns the name of
    that object if the name is in the registry and nothing otherwise,
    whatever lies behind; it returns nothing when there is no
    intersection. *)
Theorem resolve_takes_nearest_hit_only `{api : THREE.Api}
    (nearest_first : THREE.NearestFirst)
    (refs : Refs) (event : MouseEvent.t) (rect : DOMRect.t)
    (camera : THREE.Camera) (scene : THREE.Object3D) :
  let picked := snd (resolve refs event rect camera scene) in
  let intersects :=
    THREE.intersectObjects
      (THREE.setFromCamera (Vector2.mk (ndc_x event rect) (ndc_y event rect)) camera)
      (THREE.children scene) true in
  (intersects = [] -> picked = None)
  ∧ (forall i rest, intersects = i :: rest ->
       (forall j, j ∈ intersects -> (THREE.distance i <= THREE.distance j)%Q)
       ∧ (THREE.name (THREE.object i) ∈ allParts ->
            picked = Some (THREE.name (THREE.object i)))
       ∧ (THREE.name (THREE.object i) ∉ allParts -> picked = None))
  ∧ (forall id, picked = Some id <->
       exists i rest, intersects = i :: rest
                      ∧ THREE.name (THREE.object i) = id ∧ id ∈ allParts).
Proof.
  intros picked intersects.
  assert (picked
          = match intersects with
            | i :: _ =>
                if bool_decide (THREE.name (THREE.object i) ∈ allParts)
                then Some (THREE.name (THREE.object i)) else None
            | [] => None
            end) as Hpicked by apply resolve_picked.
  split; [intros Hnil; by rewrite Hpicked, Hnil |].
  split.
  - intros i rest Hh. split.
    + intros j Hj. by apply (head_nearest event rect camera scene i rest).
    + rewrite Hpicked, Hh. split; intros Hn.
      * by rewrite bool_decide_eq_true_2.
      * by rewrite bool_decide_eq_false_2.
  - intros id. rewrite Hpicked. split.
    + destruct intersects as [|i rest]; [done |].
      case_bool_decide as Hn; [| done].
      intros [= <-]. by exists i, rest.
    + intros (i & rest & -> & <- & Hn). by rewrite bool_decide_eq_true_2.
Qed.

Lemma resolve_takes_nearest_hit_only_witness :
  let tooth := THREE.mkIntersection 1 (Flat.Node "Tooth" (Some (Flat.unit_box 1)) []) in
  let brace := THREE.mkIntersection 2
    (Flat.Node "BezierCircle005_Material005_0001" (Some (Flat.unit_box 2)) []) in
  hits (api := Flat.api) Flat.centre_click Flat.canvas tt Flat.occluded_scene
    = [tooth; brace]
  ∧ Flat.name (THREE.object brace) ∈ allParts
  ∧ snd (resolve (api := Flat.api) Flat.refs0 Flat.centre_click Flat.canvas tt
           Flat.occluded_scene) = None
  ∧ snd (resolve (api := Flat.api) Flat.refs0 Flat.centre_click Flat.canvas tt
           Flat.clear_scene) = Some "BezierCircle005_Material005_0001".
Proof.
  intros tooth brace.
  split; [vm_compute; reflexivity |].
  split; [apply (bool_decide_unpack _); vm_compute; exact I |].
  split.
  - destruct (resolve_takes_nearest_hit_only (api := Flat.api)
                Flat_nearest_first
                Flat.refs0 Flat.centre_click Flat.canvas tt Flat.occluded_scene)
      as (_ & Hhead & _).
    destruct (Hhead tooth [brace]) as (_ & _ & Hocc).
    + vm_compute. reflexivity.
    + apply Hocc. apply (bool_decide_unpack _). vm_compute. exact I.
  - destruct (resolve_takes_nearest_hit_only (api := Flat.api)
                Flat_nearest_first
                Flat.refs0 Flat.centre_click Flat.canvas tt Flat.clear_scene)
      as (_ & Hhead & _).
    destruct (Hhead brace []) as (_ & Hin & _).
    + vm_compute. reflexivity.
    + apply Hin. apply (bool_decide_unpack _). vm_compute. exact I.
Defined.

(** C9. The result of the resolver is a function of the pointer, the
    canvas rectangle, the camera and the scene alone: the two cells it
    works in are overwritten before they are read, so whatever they held,
    the result is the same, and so are the cells afterwards and the store
    the click leaves. *)
Theorem resolve_is_deterministic `{api : THREE.Api}
    (refs1 refs2 : Refs) (event : MouseEvent.t) (rect : DOMRect.t)
    (camera : THREE.Camera) (scene : THREE.Object3D) :
  resolve refs1 event rect camera scene = resolve refs2 event rect camera scene
  ∧ forall st,
      fst (handleCanvasClick st refs1 event rect camera scene)
      = fst (handleCanvasClick st refs2 event rect camera scene).
Proof.
  split; [reflexivity |].
  intros st. by rewrite !handleCanvasClick_applyPick.
Qed.

(** * Further properties of the store *)

Lemma Store_eq (st1 st2 : Store) :
  selectedColor st1 = selectedColor st2 ->
  colorMode st1 = colorMode st2 ->
  meshColors st1 = meshColors st2 ->
  st1 = st2.
Proof. destruct st1, st2; simpl; congruence. Qed.

Lemma uniform_values (c p v : string) : uniform c !! p = Some v -> v = c.
Proof. rewrite uniform_lookup. case_decide; congruence. Qed.

Lemma mount_values (sel mode p v : string) :
  meshColors (mount sel mode) !! p = Some v -> v ≠ "".
Proof.
  unfold mount. rewrite applyColorsEffect_meshColors. simpl.
  case_bool_decide as Hd.
  - intros ->%uniform_values. tauto.
  - by rewrite lookup_empty.
Qed.

Lemma step_values (op : Op) (st : Store) :
  (forall p v, meshColors st !! p = Some v -> v ≠ "") ->
  forall p v, meshColors (step op st) !! p = Some v -> v ≠ "".
Proof.
  intros Hinv p v. destruct op as [c|m|id]; cbn [step].
  - unfold setPendingColor. rewrite setSelectedColor_meshColors.
    case_bool_decide as Hd; [| apply Hinv].
    intros ->%uniform_values. tauto.
  - unfold setMode. rewrite setColorMode_meshColors.
    case_bool_decide as Hd; [| apply Hinv].
    intros ->%uniform_values. tauto.
  - rewrite applyPick_meshColors.
    case_bool_decide as Hd; [| apply Hinv].
    destruct (decide (id = p)) as [->|Hne].
    + rewrite lookup_insert_eq. intros [= <-]. tauto.
    + rewrite lookup_insert_ne by done. apply Hinv.
Qed.

Lemma step_dom_mono (op : Op) (st : Store) :
  keys_known st -> dom (meshColors st) ⊆ dom (meshColors (step op st)).
Proof.
  unfold keys_known. intros Hk. destruct op as [c|m|id]; cbn [step].
  - unfold setPendingColor. rewrite setSelectedColor_meshColors.
    case_bool_decide; [by rewrite uniform_dom | done].
  - unfold setMode. rewrite setColorMode_meshColors.
    case_bool_decide; [by rewrite uniform_dom | done].
  - rewrite applyPick_meshColors.
    case_bool_decide; [| done].
    rewrite dom_insert_L. apply union_subseteq_r.
Qed.

Lemma broadcast_after_all_select (st : Store) (c : string) :
  reachable st -> c ≠ "" ->
  meshColors (setSelectedColor c (setColorMode All st)) = uniform c.
Proof.
  intros Hreach Hc. rewrite setSelectedColor_meshColors.
  destruct (setColorMode_fields All st) as [Hs Hm]. rewrite Hs, Hm.
  case_bool_decide as Hd; [done |].
  destruct (decide (c = selectedColor st)) as [Heq|Hne]; [| tauto].
  pose proof (reachable_uniform _ (reach_step st (SetMode All) Hreach)) as Hu.
  unfold uniform_in_all in Hu. cbn [step] in Hu. unfold setMode in Hu.
  rewrite Hs, Hm, <- Heq in Hu. by apply Hu.
Qed.

(** In every state the store can reach, while the mode is [All] and a
    colour is pending, the mapping is the broadcast of that colour: every
    known part shows the pending colour, not only right after a selection. *)
Theorem all_mode_always_shows_pending_color (st : Store) :
  reachable st -> colorMode st = All -> selectedColor st ≠ "" ->
  meshColors st = uniform (selectedColor st)
  ∧ forall p, p ∈ allParts -> colorFor (meshColors st) p = selectedColor st.
Proof.
  intros Hreach Hm Hs.
  assert (meshColors st = uniform (selectedColor st)) as Hu
    by (by apply reachable_uniform).
  split; [done |]. intros p Hp. rewrite Hu. by apply colorFor_uniform.
Qed.

Lemma all_mode_always_shows_pending_color_witness :
  let st := run [SetMode Single; SetPendingColor "#FF0000";
                 ApplyPick "BezierCircle005_Material005_0001";
                 SetPendingColor "#008000"; SetMode All;
                 ApplyPick "BezierCircle005_Material005_0002"]
                (mount "#0000FF" "single") in
  meshColors st = uniform "#008000"
  ∧ forall p, p ∈ allParts -> colorFor (meshColors st) p = "#008000".
Proof.
  intros st.
  apply (all_mode_always_shows_pending_color st).
  - apply reachable_run, reach_mount.
  - reflexivity.
  - discriminate.
Defined.

(** No stored colour is ever the empty string, so the fallback of line 127
    only ever stands in for a missing entry: [colorFor] returns the entry
    of a part whenever there is one. *)
Theorem stored_colors_are_never_empty (st : Store) (p c : string) :
  reachable st -> meshColors st !! p = Some c ->
  c ≠ "" ∧ colorFor (meshColors st) p = c.
Proof.
  intros Hreach Hp.
  assert (c ≠ "") as Hc.
  { revert p c Hp. induction Hreach as [sel mode | st op _ IH]; intros p c.
    - apply mount_values.
    - by apply step_values. }
  split; [done |]. unfold colorFor, JS.or_else. rewrite Hp.
  by apply truthy_spec in Hc as ->.
Qed.

Lemma stored_colors_are_never_empty_witness :
  let st := run [SetMode Single; SetPendingColor "#FF0000";
                 ApplyPick "BezierCircle005_Material005_0001"]
                (mount "#0000FF" "single") in
  "#FF0000" ≠ ""
  ∧ colorFor (meshColors st) "BezierCircle005_Material005_0001" = "#FF0000".
Proof.
  intros st.
  apply (stored_colors_are_never_empty st "BezierCircle005_Material005_0001").
  - apply reachable_run, reach_mount.
  - vm_compute. reflexivity.
Defined.

(** Once a part has an entry it keeps one: from a store whose keys are
    registry names, no sequence of operations ever removes a key. *)
Theorem entries_are_never_removed (st : Store) (ops : list Op) :
  dom (meshColors st) ⊆ list_to_set allParts ->
  dom (meshColors st) ⊆ dom (meshColors (run ops st)).
Proof.
  revert st. induction ops as [|op ops IH]; intros st Hk; [done |].
  cbn [run foldl]. transitivity (dom (meshColors (step op st))).
  - by apply step_dom_mono.
  - apply IH. by apply step_keys.
Qed.

Lemma entries_are_never_removed_witness :
  let st := run [SetMode Single; SetPendingColor "#FF0000";
                 ApplyPick "BezierCircle005_Material005_0001"]
                (mount "#0000FF" "single") in
  dom (meshColors st)
  ⊆ dom (meshColors (run [SetPendingColor "#008000"; SetMode All; SetMode Single] st)).
Proof.
  intros st. apply (entries_are_never_removed st).
  apply reachable_keys, reachable_run, reach_mount.
Defined.

(** Paint everything, then one part: after [setMode(All)],
    [setPendingColor(c)], [setMode(Single)], [setPendingColor(c')] and a
    pick of the known part [p], part [p] has colour [c'] and every other
    known part still has colour [c]. *)
Theorem paint_all_then_one (st : Store) (c c' p : string) :
  reachable st -> c ≠ "" -> c' ≠ "" -> p ∈ allParts ->
  let st' := run [SetMode All; SetPendingColor c; SetMode Single;
                  SetPendingColor c'; ApplyPick p] st in
  colorFor (meshColors st') p = c'
  ∧ forall q, q ∈ allParts -> q ≠ p -> colorFor (meshColors st') q = c.
Proof.
  intros Hreach Hc Hc' Hp st'. subst st'. cbn [run foldl step].
  unfold setPendingColor, setMode.
  set (s2 := setSelectedColor c (setColorMode All st)).
  assert (meshColors s2 = uniform c) as H2
    by (by apply broadcast_after_all_select).
  set (s3 := setColorMode Single s2).
  set (s4 := setSelectedColor c' s3).
  destruct (setColorMode_fields Single s2) as [_ Hm3]. fold s3 in Hm3.
  destruct (setSelectedColor_fields c' s3) as [Hs4 Hm4]. fold s4 in Hs4, Hm4.
  rewrite Hm3 in Hm4.
  assert (meshColors s3 = uniform c) as H3.
  { subst s3. rewrite setColorMode_meshColors.
    rewrite bool_decide_eq_false_2; [done |].
    intros [HS _]. symmetry in HS. by apply All_neq_Single. }
  assert (meshColors s4 = uniform c) as H4.
  { subst s4. rewrite setSelectedColor_meshColors, Hm3.
    rewrite bool_decide_eq_false_2; [done |].
    intros (_ & HS & _). symmetry in HS. by apply All_neq_Single. }
  rewrite applyPick_meshColors, Hs4, Hm4, H4.
  rewrite bool_decide_eq_true_2 by done.
  split.
  - unfold colorFor, JS.or_else. rewrite lookup_insert_eq.
    by apply truthy_spec in Hc' as ->.
  - intros q Hq Hne. unfold colorFor. rewrite lookup_insert_ne by done.
    by apply (colorFor_uniform c q).
Qed.

Lemma paint_all_then_one_witness :
  let p := "BezierCircle006_Material005_0007" in
  let st' := run [SetMode All; SetPendingColor "#FF0000"; SetMode Single;
                  SetPendingColor "#0000FF"; ApplyPick p]
                 (mount "#0000FF" "all") in
  colorFor (meshColors st') p = "#0000FF"
  ∧ forall q, q ∈ allParts -> q ≠ p -> colorFor (meshColors st') q = "#FF0000".
Proof.
  intros p.
  apply (paint_all_then_one (mount "#0000FF" "all") "#FF0000" "#0000FF" p).
  - apply reach_mount.
  - discriminate.
  - discriminate.
  - apply (bool_decide_unpack _). vm_compute. exact I.
Defined.

(** Doing the same thing twice is doing it once: choosing the mode that is
    already chosen, the colour that is already pending, or picking the part
    that was just picked leaves the store as the first call left it. *)
Theorem repeated_operation_changes_nothing (op : Op) (st : Store) :
  step op (step op st) = step op st.
Proof.
  destruct (step_fields op st) as [Hs Hm].
  destruct (step_fields op (step op st)) as [Hs' Hm'].
  apply Store_eq.
  - destruct op; congruence.
  - destruct op; congruence.
  - destruct op as [c|m|id]; cbn [step] in *.
    + unfold setPendingColor in *. rewrite (setSelectedColor_meshColors c (setSelectedColor c st)).
      rewrite bool_decide_eq_false_2; [done |]. intros [Hne _]. by rewrite Hs in Hne.
    + unfold setMode in *. rewrite (setColorMode_meshColors m (setColorMode m st)).
      rewrite bool_decide_eq_false_2; [done |].
      intros (HA & Hne & _). by rewrite Hm in Hne.
    + rewrite (applyPick_meshColors id (applyPick id st)), Hs, Hm.
      rewrite applyPick_meshColors.
      case_bool_decide; [| done]. by rewrite insert_insert_eq.
Qed.

(** Picks do not depend on their order: picking [p] then [q] leaves the
    store that picking [q] then [p] leaves. *)
Theorem picks_commute (p q : string) (st : Store) :
  applyPick p (applyPick q st) = applyPick q (applyPick p st).
Proof.
  destruct (applyPick_fields p st) as [Hsp Hmp].
  destruct (applyPick_fields q st) as [Hsq Hmq].
  destruct (applyPick_fields p (applyPick q st)) as [Hs1 Hm1].
  destruct (applyPick_fields q (applyPick p st)) as [Hs2 Hm2].
  apply Store_eq; [congruence | congruence |].
  rewrite !applyPick_meshColors, Hsp, Hmp, Hsq, Hmq.
  destruct (decide (p = q)) as [->|Hne]; [done |].
  repeat case_bool_decide; try done; try tauto.
  by apply insert_insert_ne.
Qed.

(** What the first render and the mount effect leave.  Mounted in [All]
    mode with a colour pending, the mapping is the broadcast of that
    colour.  Mounted in any other mode (the mode was switched while the
    asset was loading), the mapping is empty and every part shows the
    default ['#0000FF'], whatever colour is pending. *)
Theorem mount_paints_only_in_all_mode (sel mode : string) :
  selectedColor (mount sel mode) = sel
  ∧ colorMode (mount sel mode) = mode
  ∧ (mode = All -> sel ≠ "" ->
     meshColors (mount sel mode) = uniform sel
     ∧ forall p, p ∈ allParts -> colorFor (meshColors (mount sel mode)) p = sel)
  ∧ (mode ≠ All ->
     meshColors (mount sel mode) = ∅
     ∧ forall p, colorFor (meshColors (mount sel mode)) p = "#0000FF").
Proof.
  unfold mount.
  destruct (applyColorsEffect_fields (useState_init sel mode)) as [-> ->].
  rewrite applyColorsEffect_meshColors. cbn [useState_init selectedColor colorMode meshColors].
  split; [done |]. split; [done |]. split.
  - intros Hm Hs. rewrite bool_decide_eq_true_2 by done.
    split; [done |]. intros p Hp. by apply colorFor_uniform.
  - intros Hm. rewrite bool_decide_eq_false_2 by tauto.
    split; [done |]. intros p. unfold colorFor. by rewrite lookup_empty.
Qed.

Lemma mount_paints_only_in_all_mode_witness :
  meshColors (mount "#FF0000" "single") = ∅
  ∧ colorFor (meshColors (mount "#FF0000" "single"))
      "BezierCircle005_Material005_0001" = "#0000FF"
  ∧ colorFor (meshColors (mount "#FF0000" "all"))
      "BezierCircle005_Material005_0001" = "#FF0000".
Proof.
  destruct (mount_paints_only_in_all_mode "#FF0000" "single") as (_ & _ & _ & Hs).
  destruct Hs as [He Hd]; [discriminate |].
  destruct (mount_paints_only_in_all_mode "#FF0000" "all") as (_ & _ & Ha & _).
  destruct Ha as [_ Hc]; [reflexivity | discriminate |].
  split; [exact He |]. split; [apply Hd |].
  apply Hc. apply (bool_decide_unpack _). vm_compute. exact I.
Defined.

(** Outside [All] mode a selection is only staged: [setPendingColor(c)]
    makes [c] the pending colour and leaves the mode and every entry of
    the mapping as they are, so nothing is repainted before a click. *)
Theorem selection_outside_all_mode_only_stages (st : Store) (c : string) :
  colorMode st ≠ All ->
  selectedColor (setPendingColor c st) = c
  ∧ colorMode (setPendingColor c st) = colorMode st
  ∧ meshColors (setPendingColor c st) = meshColors st.
Proof.
  intros Hm. unfold setPendingColor.
  destruct (setSelectedColor_fields c st) as [-> ->].
  rewrite setSelectedColor_meshColors.
  rewrite bool_decide_eq_false_2; [done | tauto].
Qed.

Lemma selection_outside_all_mode_only_stages_witness :
  let st := run [SetMode Single] (mount "#0000FF" "all") in
  selectedColor (setPendingColor "#FF0000" st) = "#FF0000"
  ∧ colorMode (setPendingColor "#FF0000" st) = colorMode st
  ∧ meshColors (setPendingColor "#FF0000" st) = meshColors st.
Proof.
  intros st. apply (selection_outside_all_mode_only_stages st "#FF0000").
  discriminate.
Defined.

(** * Further properties of the click and of the coordinates *)

(** A click that meets nothing leaves the store as it is, in any mode.  In
    [Single] mode with a colour pending, a click whose nearest intersected
    object is a registry mesh writes the pending colour for that mesh and
    nothing else: mode and pending colour stay, and every other part keeps
    its colour. *)
Theorem click_paints_the_nearest_brace_only `{api : THREE.Api}
    (st : Store) (refs : Refs) (event : MouseEvent.t) (rect : DOMRect.t)
    (camera : THREE.Camera) (scene : THREE.Object3D) :
  let st' := fst (handleCanvasClick st refs event rect camera scene) in
  (hits event rect camera scene = [] -> st' = st)
  ∧ (forall i rest,
       hits event rect camera scene = i :: rest ->
       colorMode st = Single -> selectedColor st ≠ "" ->
       THREE.name (THREE.object i) ∈ allParts ->
       meshColors st' = <[THREE.name (THREE.object i) := selectedColor st]> (meshColors st)
       ∧ selectedColor st' = selectedColor st
       ∧ colorMode st' = colorMode st
       ∧ colorFor (meshColors st') (THREE.name (THREE.object i)) = selectedColor st
       ∧ forall q, q ≠ THREE.name (THREE.object i) ->
           colorFor (meshColors st') q = colorFor (meshColors st) q).
Proof.
  intros st'. subst st'. rewrite handleCanvasClick_applyPick. split.
  - by intros ->.
  - intros i rest -> Hm Hs Hn.
    destruct (applyPick_fields (THREE.name (THREE.object i)) st) as [-> ->].
    rewrite applyPick_meshColors, bool_decide_eq_true_2 by done.
    split; [done |]. split; [done |]. split; [done |]. split.
    + unfold colorFor, JS.or_else. rewrite lookup_insert_eq.
      by apply truthy_spec in Hs as ->.
    + intros q Hq. unfold colorFor. by rewrite lookup_insert_ne.
Qed.

Lemma click_paints_the_nearest_brace_only_witness :
  let st := run [SetMode Single; SetPendingColor "#FF0000"] (mount "#0000FF" "all") in
  let st' := fst (handleCanvasClick (api := Flat.api) st Flat.refs0
                    Flat.centre_click Flat.canvas tt Flat.clear_scene) in
  colorFor (meshColors st') "BezierCircle005_Material005_0001" = "#FF0000"
  ∧ colorFor (meshColors st') "BezierCircle005_Material005_0002" = "#0000FF".
Proof.
  intros st.
  destruct (click_paints_the_nearest_brace_only (api := Flat.api) st Flat.refs0
              Flat.centre_click Flat.canvas tt Flat.clear_scene) as [_ Hhit].
  destruct (Hhit (THREE.mkIntersection 2
                    (Flat.Node "BezierCircle005_Material005_0001"
                       (Some (Flat.unit_box 2)) [])) [])
    as (_ & _ & _ & Hp & Hq).
  - vm_compute. reflexivity.
  - reflexivity.
  - discriminate.
  - apply (bool_decide_unpack _). vm_compute. exact I.
  - split; [exact Hp |].
    rewrite (Hq "BezierCircle005_Material005_0002"); [| discriminate].
    vm_compute. reflexivity.
Defined.

(** * Properties of the page *)

Lemma ui_reachable_mode (st : Store) :
  ui_reachable st -> colorMode st = All ∨ colorMode st = Single.
Proof.
  induction 1 as [entry mode _ Hmode | st op _ IH Hev].
  - unfold mount.
    destruct (applyColorsEffect_fields (useState_init (hex entry) mode)) as [_ ->].
    simpl. apply elem_of_cons in Hmode as [->|Hmode]; [by left |].
    apply list_elem_of_singleton in Hmode as ->. by right.
  - destruct (step_fields op st) as [_ Hm].
    destruct Hev; cbn [step] in *; rewrite Hm; auto.
Qed.

Lemma one_card_per_hex (entry : PaletteEntry) :
  entry ∈ COLORS ->
  List.filter (fun color => (hex entry =? hex color)%string) COLORS = [entry].
Proof.
  intros Hin.
  assert (Forall (fun e => List.filter (fun color => (hex e =? hex color)%string) COLORS = [e])
            COLORS) as Hall.
  { repeat constructor. }
  by apply (proj1 (Forall_forall _ _) Hall).
Qed.

(** In every state the page can reach exactly one palette card is marked,
    the card of the pending colour: the 28 colours of the palette are
    distinct and the pending colour is always one of them. *)
Theorem exactly_one_card_is_active (st : Store) :
  ui_reachable st ->
  length COLORS = 28%nat
  ∧ exists entry,
      List.filter (cardActive st) COLORS = [entry]
      ∧ hex entry = selectedColor st
      ∧ cardClassName st entry
        = "color-card text-center cursor-pointer p-1.5 h-16 flex flex-col justify-between active".
Proof.
  intros Hst. split; [reflexivity |].
  destruct (ui_reachable_pending st Hst) as (entry & Hin & Hsel).
  exists entry. unfold cardClassName, cardActive. rewrite Hsel.
  split; [by apply one_card_per_hex |]. split; [done |].
  by rewrite String.eqb_refl.
Qed.

Lemma exactly_one_card_is_active_witness :
  List.filter (cardActive (run [SetPendingColor "#FF0000"] (mount "#0000FF" "all"))) COLORS
  = [ {| name := "Red"; hex := "#FF0000" |} ].
Proof.
  destruct (exactly_one_card_is_active
              (run [SetPendingColor "#FF0000"] (mount "#0000FF" "all")))
    as (_ & entry & Hf & _ & _).
  - apply (ui_step _ (SetPendingColor "#FF0000")).
    + apply (ui_mount {| name := "Blue"; hex := "#0000FF" |} All).
      * by apply (list_elem_of_lookup_2 _ 6%nat).
      * by left.
    + apply (ui_palette {| name := "Red"; hex := "#FF0000" |}).
      by apply (list_elem_of_lookup_2 _ 11%nat).
  - reflexivity.
Defined.

(** In every state the page can reach exactly one of the two mode buttons
    is highlighted, the one of the current mode, and the line of
    instructions is the one of that mode. *)
Theorem exactly_one_mode_button_is_highlighted (st : Store) :
  ui_reachable st ->
  (colorMode st = All
   ∧ allButtonClassName st = modeButtonClassName true
   ∧ singleButtonClassName st = modeButtonClassName false
   ∧ instruction st = "Select a color to apply to all braces")
  ∨ (colorMode st = Single
     ∧ allButtonClassName st = modeButtonClassName false
     ∧ singleButtonClassName st = modeButtonClassName true
     ∧ instruction st
       = "Select a color, then click on individual braces to change their color").
Proof.
  intros Hst. unfold allButtonClassName, singleButtonClassName, instruction.
  destruct (ui_reachable_mode st Hst) as [Hm|Hm]; rewrite Hm; [left | right];
    by repeat split.
Qed.

Lemma exactly_one_mode_button_is_highlighted_witness :
  let st := run [SetMode Single] (mount "#0000FF" "all") in
  allButtonClassName st
    = "px-3 py-1 text-sm rounded transition-colors bg-gray-200 text-gray-700 hover:bg-gray-300"
  ∧ singleButtonClassName st
    = "px-3 py-1 text-sm rounded transition-colors bg-primary text-white".
Proof.
  intros st.
  destruct (exactly_one_mode_button_is_highlighted st) as [(Hm & _)|(_ & Ha & Hs & _)].
  - apply (ui_step _ (SetMode Single)); [| apply ui_mode_single].
    apply (ui_mount {| name := "Blue"; hex := "#0000FF" |} All).
    + by apply (list_elem_of_lookup_2 _ 6%nat).
    + by left.
  - discriminate Hm.
  - split; [exact Ha | exact Hs].
Defined.

Lemma page_run_isMobile (evs : list PageEvent) (pg : Page) (w : Z) :
  isMobile pg = (w <? 768)%Z ->
  isMobile (page_run evs pg) = (last_width w evs <? 768)%Z.
Proof.
  revert pg w. induction evs as [|ev evs IH]; intros pg w Hpg; [done |].
  destruct ev as [w'|]; cbn [page_run last_width foldl page_step].
  - by apply IH.
  - by apply IH.
Qed.

Lemma page_run_isLoading (evs : list PageEvent) (pg : Page) :
  isLoading (page_run evs pg) = false <-> isLoading pg = false ∨ Created ∈ evs.
Proof.
  revert pg. induction evs as [|ev evs IH]; intros pg.
  - simpl. split; [by left | intros [?|Hin]; [done | by apply elem_of_nil in Hin]].
  - cbn [page_run foldl]. fold (page_run evs (page_step ev pg)). rewrite IH.
    destruct ev as [w'|]; simpl.
    + split; (intros [?|Hin]; [by left | right]).
      * by right.
      * by apply elem_of_cons in Hin as [?|?].
    + split; [intros _; right; by left | intros _; by left].
Qed.

(** Whatever the resizes and whenever the canvas is created, the
    environment file is decided by the width the window had last: the 1k
    file under 768 pixels, the 2k file from 768 on.  The page shows the
    loading state until the canvas has been created, and never again. *)
Theorem environment_follows_last_width (w0 : Z) (evs : list PageEvent) :
  let pg := page_run evs (page_mount w0) in
  environmentFiles pg
    = (if (last_width w0 evs <? 768)%Z then "/studio_1k.hdr" else "/studio_2k.hdr")
  ∧ (isLoading pg = false <-> Created ∈ evs)
  ∧ forall evs', Created ∈ evs -> isLoading (page_run evs' pg) = false.
Proof.
  intros pg. split; [| split].
  - unfold environmentFiles. subst pg.
    by rewrite (page_run_isMobile evs (page_mount w0) w0).
  - subst pg. rewrite page_run_isLoading. simpl.
    split; [intros [?|?]; done | by right].
  - intros evs' Hc. apply page_run_isLoading. left.
    subst pg. apply page_run_isLoading. by right.
Qed.

Lemma environment_follows_last_width_witness :
  let pg := page_run [Resize 1024; Created; Resize 767] (page_mount 1280) in
  environmentFiles pg = "/studio_1k.hdr"
  ∧ isLoading (page_run [Resize 768] pg) = false
  ∧ environmentFiles (page_run [Resize 768] pg) = "/studio_2k.hdr".
Proof.
  intros pg.
  destruct (environment_follows_last_width 1280 [Resize 1024; Created; Resize 767])
    as (Hfile & _ & Hloaded).
  split; [exact Hfile |]. split.
  - apply Hloaded. apply (list_elem_of_lookup_2 _ 1%nat). reflexivity.
  - destruct (environment_follows_last_width 1280
                [Resize 1024; Created; Resize 767; Resize 768]) as (Hfile' & _).
    exact Hfile'.
Defined.

(** * The click listener *)

Lemma removeEventListener_only (f : Listener) : removeEventListener f [f] = [].
Proof. simpl. by rewrite bool_decide_eq_true_2. Qed.

Lemma addEventListener_first (f : Listener) : addEventListener f [] = [f].
Proof. reflexivity. Qed.

Lemma listener_call_current (f : Listener) (id : string) (st : Store) :
  listener_colorMode f = colorMode st ->
  listener_selectedColor f = selectedColor st ->
  listener_call f id st = applyPick id st.
Proof.
  intros Hm Hs. destruct (applyPick_fields id st) as [Hs' Hm'].
  apply Store_eq; [by rewrite Hs' | by rewrite Hm' |].
  unfold listener_call, setMeshColors; cbn [meshColors].
  rewrite Hm, Hs. by destruct st.
Qed.

Lemma model_step_inv (op : Op) (m : Model) :
  listeners m = [installed m] ->
  listener_colorMode (installed m) = colorMode (store m) ->
  listener_selectedColor (installed m) = selectedColor (store m) ->
  store (model_step op m) = step op (store m)
  ∧ listeners (model_step op m) = [installed (model_step op m)]
  ∧ listener_colorMode (installed (model_step op m))
    = colorMode (store (model_step op m))
  ∧ listener_selectedColor (installed (model_step op m))
    = selectedColor (store (model_step op m)).
Proof.
  intros Hl Hm Hs.
  assert (forall change,
            let m' := model_update change m in
            store m' = change (store m)
            ∧ listeners m' = [installed m']
            ∧ listener_colorMode (installed m') = colorMode (store m')
            ∧ listener_selectedColor (installed m') = selectedColor (store m'))
    as Hupdate.
  { intros change. unfold model_update.
    destruct (deps_changed (store m) (change (store m))) eqn:Hd; cbn.
    - rewrite Hl, removeEventListener_only. by rewrite addEventListener_first.
    - apply deps_changed_spec in Hd as [Hds Hdm].
      rewrite <- Hds, <- Hdm. done. }
  destruct op as [c|md|id]; cbn [model_step step].
  - apply (Hupdate (setSelectedColor c)).
  - apply (Hupdate (setColorMode md)).
  - unfold model_click; cbn. rewrite Hl; cbn [foldl].
    rewrite listener_call_current by done.
    destruct (applyPick_fields id (store m)) as [-> ->]. done.
Qed.

(** After any sequence of palette, mode and click events there is exactly
    one click listener on the canvas, the one the effect registered last,
    and the props it was closed over are the current mode and pending
    colour; so whatever comes next changes the store as the operation on
    the current store does, and a click is never handled with a stale mode
    or colour, nor twice. *)
Theorem one_listener_with_current_props (m : Model) :
  model_reachable m ->
  listeners m = [installed m]
  ∧ listener_colorMode (installed m) = colorMode (store m)
  ∧ listener_selectedColor (installed m) = selectedColor (store m)
  ∧ reachable (store m)
  ∧ forall op, store (model_step op m) = step op (store m).
Proof.
  intros Hm.
  assert (listeners m = [installed m]
          ∧ listener_colorMode (installed m) = colorMode (store m)
          ∧ listener_selectedColor (installed m) = selectedColor (store m)
          ∧ reachable (store m)) as (Hl & Hcm & Hcs & Hr).
  { induction Hm as [sel mode | m op _ (Hl & Hcm & Hcs & Hr)].
    - unfold model_mount; cbn. unfold mount.
      destruct (applyColorsEffect_fields (useState_init sel mode)) as [-> ->].
      repeat split. apply reach_mount.
    - destruct (model_step_inv op m Hl Hcm Hcs) as (Hst & Hl' & Hcm' & Hcs').
      repeat split; try done. rewrite Hst. by constructor. }
  repeat split; try done.
  intros op. by apply model_step_inv.
Qed.

Lemma one_listener_with_current_props_witness :
  let m := model_step (SetPendingColor "#FF0000")
             (model_step (SetMode "single") (model_mount "#0000FF" "all")) in
  listeners m = [ {| listener_render := 3;
                     listener_colorMode := "single";
                     listener_selectedColor := "#FF0000" |} ]
  ∧ meshColors (store (model_step (ApplyPick "BezierCircle005_Material005_0001") m))
      !! "BezierCircle005_Material005_0001" = Some "#FF0000".
Proof.
  intros m.
  destruct (one_listener_with_current_props m) as (Hl & _ & _ & _ & Hstep).
  - do 2 apply model_reach_step. apply model_reach_mount.
  - split; [rewrite Hl; reflexivity |].
    rewrite Hstep. vm_compute. reflexivity.
Defined.

(** * The materials *)

Lemma Object3D_induction (P : Scene.Object3D -> Prop) :
  (forall nm mesh mat cs, Forall P cs -> P (Scene.mkObject nm mesh mat cs)) ->
  forall o, P o.
Proof.
  intros Hnode. fix IH 1. intros [nm mesh mat cs]. apply Hnode.
  induction cs as [|c cs IHcs]; constructor; [apply IH | exact IHcs].
Qed.

Lemma traverse_node mc nm mesh mat cs h :
  Scene.traverse mc (Scene.mkObject nm mesh mat cs) h
  = let '(mat', h1) := Scene.visit mc nm mesh mat h in
    let '(cs', h2) := Scene.traverse_list mc cs h1 in
    (Scene.mkObject nm mesh mat' cs', h2).
Proof.
  cbn [Scene.traverse]. destruct (Scene.visit mc nm mesh mat h) as [mat' h1].
  generalize h1. clear. induction cs as [|c cs IH]; intros h1; [done |].
  cbn [Scene.traverse_list]. destruct (Scene.traverse mc c h1) as [c' h'].
  specialize (IH h').
  destruct (Scene.traverse_list mc cs h') as [rest' h''].
  match goal with
  | H : (let '(_, _) := ?f cs h' in _) = _ |- _ =>
      destruct (f cs h') as [rest2 h2'] eqn:Hgo
  end.
  by injection IH as -> ->.
Qed.

Lemma enhance_idempotent (m : Scene.Material) :
  Scene.enhance (Scene.enhance m) = Scene.enhance m.
Proof.
  destruct m as [c mt rg [q|] nu]; destruct mt; unfold Scene.enhance, Scene.num_or;
    cbn; try done; destruct (Qeq_bool q 0) eqn:Hq; cbn; by rewrite ?Hq.
Qed.

Lemma enhance_in_union (T1 T2 : gset nat) (r : nat) (m : option Scene.Material) :
  Scene.enhance_in T2 r (Scene.enhance_in T1 r m) = Scene.enhance_in (T1 ∪ T2) r m.
Proof.
  unfold Scene.enhance_in.
  destruct (decide (r ∈ T1)) as [H1|H1]; destruct (decide (r ∈ T2)) as [H2|H2].
  - rewrite decide_True by (apply elem_of_union; auto).
    destruct m; [| done]. cbn. by rewrite enhance_idempotent.
  - by rewrite decide_True by (apply elem_of_union; auto).
  - by rewrite decide_True by (apply elem_of_union; auto).
  - rewrite decide_False; [done |]. intros [?|?]%elem_of_union; contradiction.
Qed.

Lemma enhance_in_outside (T : gset nat) (r : nat) (m : option Scene.Material) :
  r ∉ T -> Scene.enhance_in T r m = m.
Proof. intros Hr. unfold Scene.enhance_in. by rewrite decide_False. Qed.

Lemma touched_refs (o : Scene.Object3D) : Scene.touched o ⊆ Scene.refs o.
Proof.
  induction o as [nm mesh mat cs IH] using Object3D_induction.
  cbn [Scene.touched Scene.refs].
  apply union_mono.
  - destruct (mesh && negb _); [done | apply empty_subseteq].
  - induction IH as [|c cs Hc _ IHcs]; [done |].
    cbn [map union_list foldr]. by apply union_mono.
Qed.

Lemma touched_list_refs (cs : list Scene.Object3D) :
  ⋃ (map Scene.touched cs) ⊆ ⋃ (map Scene.refs cs).
Proof.
  induction cs as [|c cs IH]; [done |].
  cbn [map union_list foldr]. apply union_mono; [apply touched_refs | exact IH].
Qed.

Lemma fresh_standard_stable mc (D T : gset nat) (h h' : gmap nat Scene.Material)
    (entry : string * option nat) :
  Scene.fresh_standard mc D h entry ->
  T ⊆ D ->
  (forall r, r ∈ dom h -> h' !! r = Scene.enhance_in T r (h !! r)) ->
  Scene.fresh_standard mc D h' entry.
Proof.
  intros (r & Hr & HD & Hh) HT Hupd. exists r.
  split; [done |]. split; [done |].
  rewrite Hupd by (apply elem_of_dom; by eexists).
  rewrite enhance_in_outside; [done |]. intros Hin. apply HD. by apply HT.
Qed.

Lemma visit_spec mc nm mesh mat h (D : gset nat) mat' h1 :
  (forall r, mat = Some r -> r ∈ D) ->
  D ⊆ dom h ->
  Scene.visit mc nm mesh mat h = (mat', h1) ->
  (if mesh && JS.includes BRACES_MESHES nm then None else mat')
  = (if mesh && JS.includes BRACES_MESHES nm then None else mat)
  ∧ dom h ⊆ dom h1
  ∧ (forall r, r ∈ dom h ->
       h1 !! r
       = Scene.enhance_in
           (if mesh && negb (JS.includes BRACES_MESHES nm)
            then match mat with Some r => {[r]} | None => ∅ end
            else ∅) r (h !! r))
  ∧ (mesh && JS.includes BRACES_MESHES nm = true ->
     Scene.fresh_standard mc D h1 (nm, mat')).
Proof.
  intros Hmat HD. unfold Scene.visit.
  destruct mesh; cbn [andb negb];
    [destruct (JS.includes BRACES_MESHES nm); cbn [negb] |].
  - (* a registry mesh *)
    intros [= <- <-].
    pose proof (is_fresh (dom h)) as Hfresh.
    split; [done |]. split; [rewrite dom_insert_L; apply union_subseteq_r |].
    split.
    + intros r Hr. rewrite enhance_in_outside by apply not_elem_of_empty.
      rewrite lookup_insert_ne; [done |]. intros <-. contradiction.
    + intros _. exists (fresh (dom h)). cbn [fst snd].
      split; [done |]. split; [| apply lookup_insert_eq].
      intros Hin. apply Hfresh. by apply HD.
  - (* another mesh *)
    destruct mat as [r0|].
    + destruct (h !! r0) as [m|] eqn:Hm; intros [= <- <-].
      * split; [done |]. split; [rewrite dom_insert_L; apply union_subseteq_r |].
        split; [| done].
        intros r Hr. unfold Scene.enhance_in.
        destruct (decide (r ∈ ({[r0]} : gset nat))) as [Hin|Hin].
        -- apply elem_of_singleton in Hin as ->.
           by rewrite lookup_insert_eq, Hm.
        -- rewrite lookup_insert_ne; [done |].
           intros <-. apply Hin. by apply elem_of_singleton.
      * split; [done |]. split; [done |]. split; [| done].
        intros r Hr. unfold Scene.enhance_in.
        destruct (decide (r ∈ ({[r0]} : gset nat))) as [Hin|Hin]; [| done].
        apply elem_of_singleton in Hin as ->. by rewrite Hm.
    + intros [= <- <-]. split; [done |]. split; [done |]. split; [| done].
      intros r Hr. by rewrite enhance_in_outside by apply not_elem_of_empty.
  - (* not a mesh *)
    intros [= <- <-]. split; [done |]. split; [done |]. split; [| done].
    intros r Hr. by rewrite enhance_in_outside by apply not_elem_of_empty.
Qed.

Lemma traverse_list_spec mc (cs : list Scene.Object3D) :
  Forall (fun o => forall h (D : gset nat) o' h',
            Scene.refs o ⊆ D -> D ⊆ dom h ->
            Scene.traverse mc o h = (o', h') ->
            Scene.erase o' = Scene.erase o
            ∧ dom h ⊆ dom h'
            ∧ (forall r, r ∈ dom h ->
                 h' !! r = Scene.enhance_in (Scene.touched o) r (h !! r))
            ∧ Forall (Scene.fresh_standard mc D h') (Scene.registry_refs o')) cs ->
  forall h (D : gset nat) cs' h',
    ⋃ (map Scene.refs cs) ⊆ D -> D ⊆ dom h ->
    Scene.traverse_list mc cs h = (cs', h') ->
    map Scene.erase cs' = map Scene.erase cs
    ∧ dom h ⊆ dom h'
    ∧ (forall r, r ∈ dom h ->
         h' !! r = Scene.enhance_in (⋃ (map Scene.touched cs)) r (h !! r))
    ∧ Forall (Scene.fresh_standard mc D h') (flat_map Scene.registry_refs cs').
Proof.
  induction 1 as [|c cs Hc _ IH]; intros h D cs' h' Hrefs HD.
  - intros [= <- <-]. split; [done |]. split; [done |]. split; [| constructor].
    intros r Hr. by rewrite enhance_in_outside by apply not_elem_of_empty.
  - cbn [Scene.traverse_list].
    destruct (Scene.traverse mc c h) as [c' h1] eqn:Hc'.
    destruct (Scene.traverse_list mc cs h1) as [rest' h2] eqn:Hrest.
    intros [= <- <-].
    cbn [map union_list foldr] in Hrefs.
    assert (Scene.refs c ⊆ D) as Hrc
      by (etransitivity; [apply union_subseteq_l | exact Hrefs]).
    assert (⋃ (map Scene.refs cs) ⊆ D) as Hrcs
      by (etransitivity; [apply union_subseteq_r | exact Hrefs]).
    destruct (Hc h D c' h1 Hrc HD Hc') as (He1 & Hd1 & Hu1 & Hf1).
    assert (D ⊆ dom h1) as HD1 by (by etransitivity).
    destruct (IH h1 D rest' h2 Hrcs HD1 Hrest) as (He2 & Hd2 & Hu2 & Hf2).
    split; [cbn [map]; by rewrite He1, He2 |].
    split; [by etransitivity |].
    split.
    + intros r Hr. cbn [map union_list foldr].
      rewrite Hu2 by (by apply Hd1). rewrite Hu1 by done.
      apply enhance_in_union.
    + cbn [flat_map]. apply Forall_app. split; [| done].
      eapply Forall_impl; [exact Hf1 |]. intros entry Hentry.
      eapply (fresh_standard_stable mc D (⋃ (map Scene.touched cs)) h1 h2);
        [done | | done].
      etransitivity; [apply touched_list_refs | done].
Qed.

Lemma traverse_spec mc (o : Scene.Object3D) :
  forall h (D : gset nat) o' h',
    Scene.refs o ⊆ D -> D ⊆ dom h ->
    Scene.traverse mc o h = (o', h') ->
    Scene.erase o' = Scene.erase o
    ∧ dom h ⊆ dom h'
    ∧ (forall r, r ∈ dom h ->
         h' !! r = Scene.enhance_in (Scene.touched o) r (h !! r))
    ∧ Forall (Scene.fresh_standard mc D h') (Scene.registry_refs o').
Proof.
  induction o as [nm mesh mat cs IH] using Object3D_induction.
  intros h D o' h' Hrefs HD. rewrite traverse_node.
  destruct (Scene.visit mc nm mesh mat h) as [mat' h1] eqn:Hv.
  destruct (Scene.traverse_list mc cs h1) as [cs' h2] eqn:Hcs.
  intros [= <- <-].
  cbn [Scene.refs] in Hrefs.
  assert (forall r, mat = Some r -> r ∈ D) as Hmat.
  { intros r ->. apply Hrefs, elem_of_union. left. by apply elem_of_singleton. }
  assert (⋃ (map Scene.refs cs) ⊆ D) as Hrcs
    by (etransitivity; [apply union_subseteq_r | exact Hrefs]).
  destruct (visit_spec mc nm mesh mat h D mat' h1 Hmat HD Hv)
    as (He1 & Hd1 & Hu1 & Hf1).
  assert (D ⊆ dom h1) as HD1 by (by etransitivity).
  destruct (traverse_list_spec mc cs IH h1 D cs' h2 Hrcs HD1 Hcs)
    as (He2 & Hd2 & Hu2 & Hf2).
  split; [cbn [Scene.erase]; by rewrite He1, He2 |].
  split; [by etransitivity |].
  split.
  - intros r Hr. cbn [Scene.touched].
    rewrite Hu2 by (by apply Hd1). rewrite Hu1 by done.
    apply enhance_in_union.
  - cbn [Scene.registry_refs]. apply Forall_app. split; [| done].
    destruct (mesh && JS.includes BRACES_MESHES nm) eqn:Hreg; [| constructor].
    constructor; [| constructor].
    eapply (fresh_standard_stable mc D (⋃ (map Scene.touched cs)) h1 h2);
      [by apply Hf1 | | done].
    etransitivity; [apply touched_list_refs | done].
Qed.

Lemma meshes_of_registry mc (D : gset nat) (h : gmap nat Scene.Material)
    (o : Scene.Object3D) :
  Forall (Scene.fresh_standard mc D h) (Scene.registry_refs o) ->
  forall nm m, (nm, m) ∈ Scene.meshes h o -> nm ∈ allParts ->
               m = Some (Scene.standardMaterial (colorFor mc nm)).
Proof.
  induction o as [nm0 mesh mat cs IH] using Object3D_induction.
  cbn [Scene.registry_refs Scene.meshes].
  intros [Hown Hcs]%Forall_app nm m [Hin|Hin]%elem_of_app Hnm.
  - destruct mesh; [| by apply elem_of_nil in Hin].
    apply list_elem_of_singleton in Hin as [= -> ->].
    cbn [andb] in Hown. unfold allParts in Hnm.
    apply includes_spec in Hnm. rewrite Hnm in Hown.
    apply Forall_cons in Hown as [(r & Hr & _ & Hh) _]. cbn [fst snd] in *.
    subst mat. exact Hh.
  - clear Hown. induction IH as [|c cs Hc _ IHcs]; cbn [flat_map] in *.
    + by apply elem_of_nil in Hin.
    + apply Forall_app in Hcs as [Hc1 Hc2].
      apply elem_of_app in Hin as [Hin|Hin]; [by eapply Hc | by apply IHcs].
Qed.

Lemma view_is_shown mc (D : gset nat) (h : gmap nat Scene.Material)
    (o : Scene.Object3D) :
  Forall (Scene.fresh_standard mc D h) (Scene.registry_refs o) ->
  Scene.view h o = Scene.shown mc h o.
Proof.
  induction o as [nm mesh mat cs IH] using Object3D_induction.
  cbn [Scene.registry_refs Scene.view Scene.shown].
  intros [Hown Hcs]%Forall_app. f_equal.
  - destruct (mesh && JS.includes BRACES_MESHES nm); [| done].
    apply Forall_cons in Hown as [(r & Hr & _ & Hh) _]. cbn [fst snd] in *.
    subst mat. exact Hh.
  - clear Hown. induction IH as [|c cs Hc _ IHcs]; [done |].
    cbn [flat_map map] in *. apply Forall_app in Hcs as [Hc1 Hc2].
    f_equal; [by apply Hc | by apply IHcs].
Qed.

Lemma shown_erase mc (h : gmap nat Scene.Material) (o : Scene.Object3D) :
  Scene.shown mc h (Scene.erase o) = Scene.shown mc h o.
Proof.
  induction o as [nm mesh mat cs IH] using Object3D_induction.
  cbn [Scene.erase Scene.shown]. f_equal.
  - by destruct (mesh && JS.includes BRACES_MESHES nm).
  - induction IH as [|c cs Hc _ IHcs]; [done |].
    cbn [map]. by f_equal.
Qed.

Lemma shown_ext mc (h h' : gmap nat Scene.Material) (o : Scene.Object3D) :
  (forall r, r ∈ Scene.refs o -> h !! r = h' !! r) ->
  Scene.shown mc h o = Scene.shown mc h' o.
Proof.
  induction o as [nm mesh mat cs IH] using Object3D_induction.
  cbn [Scene.refs Scene.shown]. intros Hext. f_equal.
  - destruct (mesh && JS.includes BRACES_MESHES nm); [done |].
    destruct mat as [r|]; [| done]. cbn.
    apply Hext, elem_of_union. left. by apply elem_of_singleton.
  - assert (forall r, r ∈ ⋃ (map Scene.refs cs) -> h !! r = h' !! r) as Hcs.
    { intros r Hr. apply Hext, elem_of_union. by right. }
    clear Hext. induction IH as [|c cs Hc _ IHcs]; [done |].
    cbn [map union_list foldr] in *. f_equal.
    + apply Hc. intros r Hr. apply Hcs, elem_of_union. by left.
    + apply IHcs. intros r Hr. apply Hcs, elem_of_union. by right.
Qed.

Lemma touched_erase (o : Scene.Object3D) :
  Scene.touched (Scene.erase o) = Scene.touched o.
Proof.
  induction o as [nm mesh mat cs IH] using Object3D_induction.
  cbn [Scene.erase Scene.touched]. f_equal.
  - destruct mesh, (JS.includes BRACES_MESHES nm); done.
  - induction IH as [|c cs Hc _ IHcs]; [done |].
    cbn [map union_list foldr]. by f_equal.
Qed.

Lemma refs_erase (o : Scene.Object3D) :
  Scene.refs (Scene.erase o) ⊆ Scene.refs o.
Proof.
  induction o as [nm mesh mat cs IH] using Object3D_induction.
  cbn [Scene.erase Scene.refs]. apply union_mono.
  - destruct (mesh && JS.includes BRACES_MESHES nm); [apply empty_subseteq | done].
  - induction IH as [|c cs Hc _ IHcs]; [done |].
    cbn [map union_list foldr]. by apply union_mono.
Qed.

Lemma refs_of_erase mc (D : gset nat) (h : gmap nat Scene.Material)
    (o : Scene.Object3D) :
  Forall (Scene.fresh_standard mc D h) (Scene.registry_refs o) ->
  Scene.refs (Scene.erase o) ⊆ dom h ->
  Scene.refs o ⊆ dom h.
Proof.
  induction o as [nm mesh mat cs IH] using Object3D_induction.
  cbn [Scene.registry_refs Scene.erase Scene.refs].
  intros [Hown Hcs]%Forall_app Hsub. apply union_least.
  - destruct (mesh && JS.includes BRACES_MESHES nm).
    + apply Forall_cons in Hown as [(r & Hr & _ & Hh) _]. cbn [fst snd] in *.
      subst mat. apply singleton_subseteq_l, elem_of_dom. by eexists.
    + etransitivity; [apply union_subseteq_l | exact Hsub].
  - assert (⋃ (map Scene.refs (map Scene.erase cs)) ⊆ dom h) as Hsub'
      by (etransitivity; [apply union_subseteq_r | exact Hsub]).
    clear Hown Hsub. induction IH as [|c cs Hc _ IHcs]; [done |].
    cbn [flat_map map union_list foldr] in *.
    apply Forall_app in Hcs as [Hc1 Hc2]. apply union_least.
    + apply Hc; [done |]. etransitivity; [apply union_subseteq_l | exact Hsub'].
    + apply IHcs; [done |]. etransitivity; [apply union_subseteq_r | exact Hsub'].
Qed.

Lemma enhance_keeps (m : Scene.Material) :
  Scene.color (Scene.enhance m) = Scene.color m
  ∧ Scene.metalness (Scene.enhance m) = Scene.metalness m
  ∧ Scene.roughness (Scene.enhance m) = Scene.roughness m
  ∧ exists q, Scene.envMapIntensity (Scene.enhance m) = Some q ∧ ~ (q == 0)%Q.
Proof.
  destruct m as [c mt rg env nu]. unfold Scene.enhance; cbn.
  assert (~ (Scene.num_or env 1 == 0)%Q) as Hq.
  { unfold Scene.num_or. destruct env as [q|]; [| done].
    destruct (Qeq_bool q 0) eqn:Hq; [done |].
    intros Hz. apply Qeq_bool_iff in Hz. congruence. }
  destruct mt; cbn; repeat split; eauto.
Qed.

(** After the effect has run on a scene whose references all point into
    the heap, every mesh with a registry name shows the standard material
    in the colour [colorFor] gives for its name: the colour of its entry,
    ['#0000FF'] without one, with metalness 0.8, roughness 0.2 and
    environment intensity 1.5. *)
Theorem registry_meshes_show_their_color (mc : gmap string string)
    (scene : Scene.Object3D) (h : gmap nat Scene.Material) :
  Scene.well_formed scene h ->
  forall nm m,
    (nm, m) ∈ Scene.meshes (snd (updateMaterials mc scene h))
                           (fst (updateMaterials mc scene h)) ->
    nm ∈ allParts ->
    m = Some {| Scene.color := colorFor mc nm;
                Scene.metalness := Some 0.8%Q;
                Scene.roughness := Some 0.2%Q;
                Scene.envMapIntensity := Some 1.5%Q;
                Scene.needsUpdate := false |}.
Proof.
  intros Hwf nm m. unfold updateMaterials.
  destruct (Scene.traverse mc scene h) as [scene' h'] eqn:Ht.
  destruct (traverse_spec mc scene h (dom h) scene' h' Hwf (reflexivity _) Ht)
    as (_ & _ & _ & Hf).
  apply (meshes_of_registry mc (dom h) h' scene' Hf).
Qed.

Lemma registry_meshes_show_their_color_witness :
  let mc : gmap string string :=
    {[ "BezierCircle005_Material005_0001" := "#FF0000" ]} in
  let shown := updateMaterials mc Scene.sample_scene Scene.sample_heap in
  exists m,
    ("BezierCircle005_Material005_0001", m) ∈ Scene.meshes (snd shown) (fst shown)
    ∧ m = Some (Scene.standardMaterial "#FF0000").
Proof.
  intros mc shown. eexists. split.
  - apply (list_elem_of_lookup_2 _ 0%nat). vm_compute. reflexivity.
  - apply (registry_meshes_show_their_color mc Scene.sample_scene Scene.sample_heap)
      with (nm := "BezierCircle005_Material005_0001").
    + unfold Scene.well_formed. apply (bool_decide_unpack _). vm_compute. exact I.
    + apply (list_elem_of_lookup_2 _ 0%nat). vm_compute. reflexivity.
    + apply (bool_decide_unpack _). vm_compute. exact I.
Defined.

(** The effect keeps the scene as it is but for the references of the
    registry meshes: names, mesh flags, the shape of the tree and every
    other reference stay.  No material is removed and none that was there
    is recoloured: a material held by a mesh outside the registry goes
    through lines 138-141, which leave colour, metalness and roughness and
    give it a non-zero environment intensity, and every other material is
    untouched, whoever holds it. *)
Theorem materials_effect_keeps_the_rest (mc : gmap string string)
    (scene : Scene.Object3D) (h : gmap nat Scene.Material) :
  Scene.well_formed scene h ->
  let scene' := fst (updateMaterials mc scene h) in
  let h' := snd (updateMaterials mc scene h) in
  Scene.erase scene' = Scene.erase scene
  ∧ forall r m, h !! r = Some m ->
      exists m', h' !! r = Some m'
        ∧ Scene.color m' = Scene.color m
        ∧ Scene.metalness m' = Scene.metalness m
        ∧ Scene.roughness m' = Scene.roughness m
        ∧ (r ∉ Scene.touched scene -> m' = m)
        ∧ (r ∈ Scene.touched scene ->
           m' = Scene.enhance m
           ∧ exists q, Scene.envMapIntensity m' = Some q ∧ ~ (q == 0)%Q).
Proof.
  intros Hwf scene' h'. subst scene' h'. unfold updateMaterials.
  destruct (Scene.traverse mc scene h) as [scene' h'] eqn:Ht.
  destruct (traverse_spec mc scene h (dom h) scene' h' Hwf (reflexivity _) Ht)
    as (He & _ & Hu & _).
  split; [exact He |]. cbn [fst snd].
  intros r m Hm.
  assert (r ∈ dom h) as Hr by (apply elem_of_dom; by eexists).
  specialize (Hu r Hr). rewrite Hm in Hu. unfold Scene.enhance_in in Hu.
  destruct (enhance_keeps m) as (Hc & Hmt & Hrg & Henv).
  destruct (decide (r ∈ Scene.touched scene)) as [Hin|Hin].
  - exists (Scene.enhance m). repeat split; try done.
  - exists m. repeat split; try done.
Qed.

Lemma materials_effect_keeps_the_rest_witness :
  let scene' := fst (updateMaterials ∅ Scene.sample_scene Scene.sample_heap) in
  let h' := snd (updateMaterials ∅ Scene.sample_scene Scene.sample_heap) in
  Scene.erase scene' = Scene.erase Scene.sample_scene
  ∧ exists m', h' !! 0%nat = Some m' ∧ Scene.color m' = "grey".
Proof.
  destruct (materials_effect_keeps_the_rest ∅ Scene.sample_scene Scene.sample_heap)
    as [He Hm].
  - unfold Scene.well_formed. apply (bool_decide_unpack _). vm_compute. exact I.
  - split; [exact He |].
    destruct (Hm 0%nat {| Scene.color := "grey"; Scene.metalness := Some 1%Q;
                          Scene.roughness := Some 0.5%Q;
                          Scene.envMapIntensity := Some 1%Q;
                          Scene.needsUpdate := false |})
      as (m' & Hm' & Hc & _).
    + reflexivity.
    + exists m'. split; [exact Hm' | exact Hc].
Defined.

(** Running the effect a second time changes nothing that is on the
    screen: with every reference replaced by the material it points to,
    the scene after two runs is the scene after one. *)
Theorem materials_effect_twice_shows_the_same (mc : gmap string string)
    (scene : Scene.Object3D) (h : gmap nat Scene.Material) :
  Scene.well_formed scene h ->
  let once := updateMaterials mc scene h in
  let twice := updateMaterials mc (fst once) (snd once) in
  Scene.view (snd twice) (fst twice) = Scene.view (snd once) (fst once).
Proof.
  intros Hwf once twice. subst once twice. unfold updateMaterials.
  destruct (Scene.traverse mc scene h) as [s1 h1] eqn:Ht1. cbn [fst snd].
  destruct (Scene.traverse mc s1 h1) as [s2 h2] eqn:Ht2. cbn [fst snd].
  destruct (traverse_spec mc scene h (dom h) s1 h1 Hwf (reflexivity _) Ht1)
    as (He1 & Hd1 & Hu1 & Hf1).
  assert (Scene.refs (Scene.erase s1) ⊆ dom h) as Hre.
  { rewrite He1. etransitivity; [apply refs_erase | exact Hwf]. }
  assert (Scene.refs s1 ⊆ dom h1) as Hwf1.
  { apply (refs_of_erase mc (dom h) h1 s1 Hf1). by etransitivity. }
  destruct (traverse_spec mc s1 h1 (dom h1) s2 h2 Hwf1 (reflexivity _) Ht2)
    as (He2 & _ & Hu2 & Hf2).
  rewrite (view_is_shown mc (dom h1) h2 s2 Hf2).
  rewrite (view_is_shown mc (dom h) h1 s1 Hf1).
  rewrite <- (shown_erase mc h2 s2), <- (shown_erase mc h1 s1), He2.
  apply shown_ext. intros r Hr.
  assert (r ∈ dom h) as Hrh by (by apply Hre).
  rewrite Hu2 by (by apply Hd1). rewrite Hu1 by done.
  rewrite <- (touched_erase s1), He1, touched_erase.
  rewrite enhance_in_union.
  unfold Scene.enhance_in.
  destruct (decide (r ∈ Scene.touched scene)) as [Hin|Hin].
  - by rewrite decide_True by (apply elem_of_union; auto).
  - rewrite decide_False; [done |]. intros [?|?]%elem_of_union; contradiction.
Qed.

Lemma materials_effect_twice_shows_the_same_witness :
  let once := updateMaterials ∅ Scene.sample_scene Scene.sample_heap in
  let twice := updateMaterials ∅ (fst once) (snd once) in
  Scene.view (snd twice) (fst twice) = Scene.view (snd once) (fst once).
Proof.
  apply (materials_effect_twice_shows_the_same ∅ Scene.sample_scene Scene.sample_heap).
  unfold Scene.well_formed. apply (bool_decide_unpack _). vm_compute. exact I.
Defined.

(** Store and effect together: once [All] is the mode and a colour [c] has
    been selected, the effect run on the mapping of the store shows every
    registry mesh of the scene in colour [c]. *)
Theorem selected_color_reaches_every_brace (st : Store) (c : string)
    (scene : Scene.Object3D) (h : gmap nat Scene.Material) :
  reachable st -> c ≠ "" -> Scene.well_formed scene h ->
  let st' := run [SetMode All; SetPendingColor c] st in
  let shown := updateMaterials (meshColors st') scene h in
  forall nm m,
    (nm, m) ∈ Scene.meshes (snd shown) (fst shown) ->
    nm ∈ allParts ->
    m = Some (Scene.standardMaterial c).
Proof.
  intros Hreach Hc Hwf st' shown nm m Hin Hnm. subst shown.
  assert (meshColors st' = uniform c) as Hu
    by (by apply broadcast_after_all_select).
  unfold updateMaterials in Hin.
  destruct (Scene.traverse (meshColors st') scene h) as [scene' h'] eqn:Ht.
  destruct (traverse_spec _ scene h (dom h) scene' h' Hwf (reflexivity _) Ht)
    as (_ & _ & _ & Hf).
  rewrite (meshes_of_registry _ (dom h) h' scene' Hf nm m Hin Hnm).
  by rewrite Hu, colorFor_uniform.
Qed.

Lemma selected_color_reaches_every_brace_witness :
  let st' := run [SetMode All; SetPendingColor "#FF0000"] (mount "#0000FF" "single") in
  let shown := updateMaterials (meshColors st') Scene.sample_scene Scene.sample_heap in
  exists m,
    ("BezierCircle005_Material005_0001", m) ∈ Scene.meshes (snd shown) (fst shown)
    ∧ m = Some (Scene.standardMaterial "#FF0000").
Proof.
  intros st' shown. eexists. split.
  - apply (list_elem_of_lookup_2 _ 0%nat). vm_compute. reflexivity.
  - apply (selected_color_reaches_every_brace (mount "#0000FF" "single") "#FF0000"
             Scene.sample_scene Scene.sample_heap)
      with (nm := "BezierCircle005_Material005_0001").
    + apply reach_mount.
    + discriminate.
    + unfold Scene.well_formed. apply (bool_decide_unpack _). vm_compute. exact I.
    + apply (list_elem_of_lookup_2 _ 0%nat). vm_compute. reflexivity.
    + apply (bool_decide_unpack _). vm_compute. exact I.
Defined.
